(** * pytomcat: the cluster deployer ([tomcat/deployer.py])

    A shallow embedding of [ClusterDeployer] and the properties its
    specification states about it.

    Python dictionaries are finite maps ([gmap]); a dictionary that is only
    iterated ([new_apps]) is the list of its items in iteration order.
    Integers are [Z].  The cluster client [self.c] is an abstract transition
    system: every call takes the cluster from one state to the next, and
    the calls the deployer makes are recorded as a trace of events.
    [while] loops take a fuel argument; running out of it is [Diverge]. *)

From Stdlib Require Import ZArith Ascii List Sorted Lia.
From stdpp Require Import gmap strings list fin_maps.

Open Scope string_scope.
Open Scope list_scope.
Open Scope Z_scope.

(** ** Python strings: comparison and [sorted] *)

(** [s <= t] on byte strings: the first differing character decides, a
    proper prefix is smaller. *)
Fixpoint str_leb (s t : string) : bool :=
  match s, t with
  | EmptyString, _ => true
  | String _ _, EmptyString => false
  | String a s', String b t' =>
      if (N_of_ascii a <? N_of_ascii b)%N then true
      else if (N_of_ascii b <? N_of_ascii a)%N then false
      else str_leb s' t'
  end.

Fixpoint insert_sorted (x : string) (l : list string) : list string :=
  match l with
  | [] => [x]
  | y :: l' => if str_leb x y then x :: l else y :: insert_sorted x l'
  end.

(** [sorted(l)] on a list of strings. *)
Definition sorted (l : list string) : list string :=
  foldr insert_sorted [] l.

(** [l[-1]] on a list that is not empty. *)
Definition last_item (l : list string) : string := List.last l "".

(** [l[:-1]]. *)
Definition but_last (l : list string) : list string := List.removelast l.

(** [sorted([ctx] + apps)[-1]], the version Tomcat would serve. *)
Definition latest (ctx : string) (apps : list string) : string :=
  last_item (sorted (ctx :: apps)).

(** ** Data *)

(** [d['clusterDetails']]: per-node detail, keyed by node. *)
Record ClusterDetails := {
  cd_path : gmap string string;
  cd_stateName : gmap string string
}.

(** One value of the dictionary [webapp_status] returns. *)
Record AppStatus := {
  st_path : string;
  st_coherent : bool;
  st_stateName : string;
  st_presentOn : list string;
  st_clusterDetails : ClusterDetails
}.

(** The class attributes of [ClusterDeployer] that the methods read. *)
Record Config := {
  undeploy_on_error : bool;
  poll_interval : Z;
  deploy_wait_time : Z;
  gc_wait_time : Z;
  required_memory : Z;
  check_memory : bool;
  auto_gc : bool;
  kill_sessions : bool
}.

Definition default_config : Config :=
  {| undeploy_on_error := true; poll_interval := 5; deploy_wait_time := 30;
     gc_wait_time := 30; required_memory := 50; check_memory := true;
     auto_gc := true; kill_sessions := false |}.

(** A value of [new_apps]: [(ctx, path, ver)]; [ver] may be [None]. *)
Definition webapp : Type := string * string * option string.

(** The commands passed to [self.c.run_command]. *)
Inductive command :=
| cmd_deploy (fn ctx vhost : string)
| cmd_undeploy (ctx vhost : string)
| cmd_undeploy_old_versions (vhost : string)
| cmd_expire_sessions (app vhost : string)
| cmd_run_gc (hosts : list string)
| cmd_find_pools_over (pct : Z) (hosts : option (list string)).

(** What the deployer does to the outside world. *)
Inductive event :=
| EvStatus (app vhost : string) (stats : gmap string AppStatus)
| EvCommand (c : command)
| EvSleep (secs : Z).

(** The text of a [TomcatError], by the format string that builds it:
    - [ContextCollision ctx nodes]: 'There is already a context {0} on {1}'
    - [PathCollision path apps]:
      'There is already a webapp deployed to {0} on {1}'
    - [PartialClusterDeployment path apps]:
      'Webapp {0} is deployed only to a subset of nodes ({1})'
    - [SupersededByNewerVersion latest path ctx]:
      'There is a webapp {0} deployed to {1} that is newer than {2}'
    - [AmbiguousVersionsRemain path apps]:
      "Path '{0}' is served by more than one version ({1})"
    - [InsufficientMemory hosts]:
      'The following nodes do not have enough memory: {0}'
    - [DeploymentFailed failed]: "Deployment of {0} failed" *)
Inductive message :=
| ContextCollision (ctx : string) (nodes : list string)
| PathCollision (path : string) (apps : list string)
| PartialClusterDeployment (path : string) (apps : list string)
| SupersededByNewerVersion (newer path ctx : string)
| AmbiguousVersionsRemain (path : string) (apps : list string)
| InsufficientMemory (hosts : list string)
| DeploymentFailed (failed : list string).

Inductive exn :=
| TomcatError (msg : message)
| KeyError (key : string)
| UnboundLocalError (var : string)
| IOError.

Inductive outcome (A : Type) :=
| Ret (a : A)
| Raise (e : exn)
| Diverge.
Arguments Ret {A} a.
Arguments Raise {A} e.
Arguments Diverge {A}.

(** ** The cluster client

    [webapp_status] and [run_command] answer and move the cluster to its
    next state; [elapse] is what the cluster does while the deployer
    sleeps.  The answer of [run_command] is the per-node result; the
    deployer reads it only for [find_pools_over], where it is the list of
    the names of the pools over the threshold. *)
Class TomcatCluster (C : Type) := {
  webapp_status : string -> string -> C -> gmap string AppStatus * C;
  run_command : command -> C -> gmap string (list string) * C;
  elapse : Z -> C -> C
}.

(** ** Computations: cluster state in, outcome, state and trace out *)

Definition M (C A : Type) : Type := C -> outcome A * C * list event.

Definition ret {C A} (a : A) : M C A := fun c => (Ret a, c, []).

Definition raise {C A} (e : exn) : M C A := fun c => (Raise e, c, []).

Definition diverge {C A} : M C A := fun c => (Diverge, c, []).

Definition bind {C A B} (m : M C A) (f : A -> M C B) : M C B :=
  fun c =>
    match m c with
    | (Ret a, c1, t1) =>
        match f a c1 with
        | (o, c2, t2) => (o, c2, t1 ++ t2)
        end
    | (Raise e, c1, t1) => (Raise e, c1, t1)
    | (Diverge, c1, t1) => (Diverge, c1, t1)
    end.

Declare Scope deployer_scope.
Delimit Scope deployer_scope with dep.
Notation "x <- m ;; k" := (bind m (fun x => k))
  (at level 100, m at next level, right associativity) : deployer_scope.
Notation "m ;;; k" := (bind m (fun _ => k))
  (at level 100, right associativity) : deployer_scope.
Open Scope deployer_scope.

(** [for x in l: body(x)]. *)
Fixpoint for_each {C A} (l : list A) (body : A -> M C unit) : M C unit :=
  match l with
  | [] => ret tt
  | x :: l' => body x ;;; for_each l' body
  end.

(** [d[k]] on a dictionary. *)
Definition getitem {C A} (d : gmap string A) (k : string) : M C A :=
  match d !! k with
  | Some v => ret v
  | None => raise (KeyError k)
  end.

(** [d.setdefault(k, []).append(x)]. *)
Definition setdefault_append (k x : string) (d : gmap string (list string))
  : gmap string (list string) :=
  <[k := default [] (d !! k) ++ [x]]> d.

Definition outcome_of {C A} (r : outcome A * C * list event) : outcome A := r.1.1.
Definition trace_of {C A} (r : outcome A * C * list event) : list event := r.2.

(** Accumulated sleep, status reads and commands of a trace. *)
Definition slept (t : list event) : Z :=
  foldr (fun e acc => match e with EvSleep n => n + acc | _ => acc end) 0 t.

Definition sleeps (t : list event) : list Z :=
  omap (fun e => match e with EvSleep n => Some n | _ => None end) t.

Definition status_reads (t : list event) : list (gmap string AppStatus) :=
  omap (fun e => match e with EvStatus _ _ s => Some s | _ => None end) t.

Definition commands (t : list event) : list command :=
  omap (fun e => match e with EvCommand c => Some c | _ => None end) t.

Definition is_deploy (c : command) : bool :=
  match c with cmd_deploy _ _ _ => true | _ => false end.

Definition is_undeploy (c : command) : bool :=
  match c with cmd_undeploy _ _ => true | _ => false end.

(** ** The methods of [ClusterDeployer] *)

Section Deployer.
Context {C : Type} `{!TomcatCluster C}.

(** [self.c.webapp_status(app, vhost)]. *)
Definition c_webapp_status (app vhost : string) : M C (gmap string AppStatus) :=
  fun c =>
    let '(stats, c') := webapp_status app vhost c in
    (Ret stats, c', [EvStatus app vhost stats]).

(** [self.c.run_command(...)]. *)
Definition c_run_command (cmd : command) : M C (gmap string (list string)) :=
  fun c =>
    let '(rv, c') := run_command cmd c in
    (Ret rv, c', [EvCommand cmd]).

(** [time.sleep(secs)]; a negative duration is refused with an [IOError]
    (errno EINVAL) by the interpreter this code is written for. *)
Definition time_sleep (secs : Z) : M C unit :=
  fun c =>
    if bool_decide (secs < 0) then (Raise IOError, c, [])
    else (Ret tt, elapse secs c, [EvSleep secs]).

Variable self : Config.

(** The two dictionaries [_get_webapps] builds from [stats]: [paths] from
    each application's own path, [all_paths] from its per-node paths. *)
Definition webapp_paths (stats : gmap string AppStatus)
  : gmap string (list string) * gmap string (list string) :=
  foldl
    (fun acc ad =>
       let all_paths :=
         foldl (fun ap kv => setdefault_append kv.2 kv.1 ap) acc.2
               (map_to_list (cd_path (st_clusterDetails ad.2))) in
       (setdefault_append (st_path ad.2) ad.1 acc.1, all_paths))
    (∅, ∅) (map_to_list stats).

Definition _get_webapps (vhost : string)
  : M C (gmap string AppStatus * gmap string (list string)
         * gmap string (list string)) :=
  stats <- c_webapp_status "*" vhost ;;
  ret (stats, (webapp_paths stats).1, (webapp_paths stats).2).

Definition _undeploy_old_versions (path : string) (apps : list string)
    (vhost : string) : M C unit :=
  (if kill_sessions self
   then for_each apps (fun app =>
          c_run_command (cmd_expire_sessions app vhost) ;;; ret tt)
   else ret tt) ;;;
  c_run_command (cmd_undeploy_old_versions vhost) ;;;
  r <- _get_webapps vhost ;;
  served <- getitem r.1.2 path ;;
  if bool_decide (1 < length served)%nat
  then raise (TomcatError (AmbiguousVersionsRemain path served))
  else ret tt.

(** The body of the loop of [_clean_old_apps], for one value of
    [new_apps].  A message is built before it is raised: where it reads
    [paths[path]], the subscript comes first. *)
Definition _clean_old_app (stats : gmap string AppStatus)
    (paths all_paths : gmap string (list string)) (vhost : string)
    (app : webapp) : M C unit :=
  let '(ctx, path, ver) := app in
  (match stats !! ctx with
   | Some d => raise (TomcatError (ContextCollision ctx (st_presentOn d)))
   | None => ret tt
   end) ;;;
  match all_paths !! path with
  | Some _ =>
      match ver with
      | None =>
          served <- getitem paths path ;;
          raise (TomcatError (PathCollision path served))
      | Some _ =>
          match paths !! path with
          | None =>
              served <- getitem paths path ;;
              raise (TomcatError (PartialClusterDeployment path served))
          | Some served =>
              if bool_decide (1 < length served)%nat
              then
                let newest := latest ctx served in
                if bool_decide (ctx ≠ newest)
                then raise (TomcatError
                              (SupersededByNewerVersion newest path ctx))
                else
                  let oldapps := but_last (sorted served) in
                  _undeploy_old_versions path oldapps vhost
              else ret tt
          end
      end
  | None => ret tt
  end.

Definition _clean_old_apps (new_apps : list (string * webapp))
    (vhost : string) : M C unit :=
  r <- _get_webapps vhost ;;
  for_each new_apps.*2 (_clean_old_app r.1.1 r.1.2 r.2 vhost).

Definition ignore_pools : list string :=
  ["Par Eden Space"; "Par Survivor Space"].

Definition ignore_filter (lst : list string) : list string :=
  filter (fun x => x ∉ ignore_pools) lst.

(** The query is made with [100 - self.required_memory]; the code does not
    read its [percentage] argument.  [len(...) > 0] is written [0 < ...]. *)
Definition _get_memory (percentage : Z) (hosts : option (list string))
  : M C (gmap string (list string)) :=
  rv <- c_run_command (cmd_find_pools_over (100 - required_memory self) hosts) ;;
  ret (filter (fun kv : string * list string =>
                 (0 < length (ignore_filter kv.2))%nat) rv).

Definition _perform_gc (hosts : list string)
  : M C (gmap string (list string)) :=
  c_run_command (cmd_run_gc hosts).

(** The loop of [_wait_for_free_mem], entered with [wait_total]; its
    condition is the memory query itself, and [wait_total > gc_wait_time]
    is written [gc_wait_time < wait_total]. *)
Fixpoint _wait_for_free_mem_from (fuel : nat) (hosts : list string)
    (percentage wait_total : Z) : M C bool :=
  match fuel with
  | O => diverge
  | S fuel' =>
      mem <- _get_memory percentage (Some hosts) ;;
      if bool_decide (0 < size mem)%nat
      then
        if bool_decide (gc_wait_time self < wait_total) then ret false
        else
          time_sleep (poll_interval self) ;;;
          _wait_for_free_mem_from fuel' hosts percentage
            (wait_total + poll_interval self)
      else ret true
  end.

Definition _wait_for_free_mem (fuel : nat) (hosts : list string)
    (percentage : Z) : M C bool :=
  _wait_for_free_mem_from fuel hosts percentage 0.

Definition _check_memory (fuel : nat) : M C bool :=
  let percentage := 100 - required_memory self in
  mem <- _get_memory percentage None ;;
  if bool_decide (size mem ≤ 0)%nat then ret true
  else
    let hosts := (map_to_list mem).*1 in
    let errstr := InsufficientMemory hosts in
    if auto_gc self
    then
      _perform_gc (map_to_list mem).*1 ;;;
      freed <- _wait_for_free_mem fuel hosts percentage ;;
      if freed then ret true else raise (TomcatError errstr)
    else raise (TomcatError errstr).

(** The [for] loop inside [_wait_for_apps]: [(cluster_ok, failed_apps)]
    after it.  A context missing from [stats] is the [KeyError] branch. *)
Definition check_apps (stats : gmap string AppStatus)
    (ctx_list : list string) : bool * list string :=
  foldl
    (fun acc ctx =>
       match stats !! ctx with
       | Some cs =>
           if bool_decide (st_coherent cs = false)
              || bool_decide (st_stateName cs ≠ "STARTED")
           then (false, acc.2 ++ [ctx])
           else acc
       | None => (false, acc.2 ++ [ctx])
       end)
    (true, []) ctx_list.

(** The [while] loop of [_wait_for_apps], entered with [wait_total];
    [failed_apps] is [None] as long as the variable is unbound. *)
Fixpoint _wait_for_apps_from (fuel : nat) (ctx_list : list string)
    (vhost : string) (wait_total : Z) (failed_apps : option (list string))
  : M C (option (list string)) :=
  if bool_decide (wait_total < deploy_wait_time self)
  then
    match fuel with
    | O => diverge
    | S fuel' =>
        stats <- c_webapp_status "*" vhost ;;
        let r := check_apps stats ctx_list in
        if r.1 then ret (Some r.2)
        else
          time_sleep (poll_interval self) ;;;
          _wait_for_apps_from fuel' ctx_list vhost
            (wait_total + poll_interval self) (Some r.2)
    end
  else ret failed_apps.

(** [[ ctx for ctx, path, ver in new_apps.values() ]]. *)
Definition ctx_names (new_apps : list (string * webapp)) : list string :=
  (fun v : webapp => v.1.1) <$> new_apps.*2.

Definition _wait_for_apps (fuel : nat) (new_apps : list (string * webapp))
    (vhost : string) : M C (list string) :=
  r <- _wait_for_apps_from fuel (ctx_names new_apps) vhost 0 None ;;
  match r with
  | Some failed_apps => ret failed_apps
  | None => raise (UnboundLocalError "failed_apps")
  end.

(** A [for] loop that fills the dictionary [rv]. *)
Fixpoint for_collect {A R} (l : list A) (rv : gmap string R)
    (body : A -> M C (string * R)) : M C (gmap string R) :=
  match l with
  | [] => ret rv
  | x :: l' => kv <- body x ;; for_collect l' (<[kv.1 := kv.2]> rv) body
  end.

Definition _deploy (new_apps : list (string * webapp)) (vhost : string)
  : M C (gmap string (gmap string (list string))) :=
  for_collect new_apps ∅ (fun item =>
    r <- c_run_command (cmd_deploy item.1 item.2.1.1 vhost) ;;
    ret (item.2.1.1, r)).

Definition undeploy (context_names : list string) (vhost : string)
  : M C (gmap string (gmap string (list string))) :=
  for_collect context_names ∅ (fun ctx =>
    r <- c_run_command (cmd_undeploy ctx vhost) ;;
    ret (ctx, r)).

Definition deploy (fuel : nat) (new_apps : list (string * webapp))
    (vhost : string) : M C unit :=
  _clean_old_apps new_apps vhost ;;;
  (if check_memory self then _check_memory fuel ;;; ret tt else ret tt) ;;;
  _deploy new_apps vhost ;;;
  failed <- _wait_for_apps fuel new_apps vhost ;;
  if bool_decide (0 < length failed)%nat
  then
    (if undeploy_on_error self
     then undeploy (ctx_names new_apps) vhost ;;; ret tt
     else ret tt) ;;;
    raise (TomcatError (DeploymentFailed failed))
  else ret tt.
End Deployer.

(** ** Definitions used to state the properties *)

Definition str_le (s t : string) : Prop := str_leb s t = true.

(** [paths] alone: the first component of the fold of [webapp_paths]. *)
Definition paths_of (items : list (string * AppStatus))
    (d : gmap string (list string)) : gmap string (list string) :=
  foldl (fun acc ad => setdefault_append (st_path ad.2) ad.1 acc) d items.

(** The nodes [_get_memory] keeps of a [find_pools_over] answer. *)
Definition short_nodes (rv : gmap string (list string))
  : gmap string (list string) :=
  filter (fun kv : string * list string =>
            (0 < length (ignore_filter kv.2))%nat) rv.

(** An event that is not a command, or is a command [ok] accepts. *)
Definition event_ok (ok : command → bool) (e : event) : Prop :=
  match e with
  | EvCommand cmd => ok cmd = true
  | _ => True
  end.

(** A run all of whose commands [ok] accepts and, when [halting], one
    that ends: it returns or raises. *)
Definition behaves {C A} (halting : bool) (ok : command → bool)
    (r : outcome A * C * list event) : Prop :=
  (halting = true → r.1.1 ≠ Diverge) ∧ Forall (event_ok ok) r.2.

Definition not_deploy (cmd : command) : bool := negb (is_deploy cmd).

Definition not_undeploy (cmd : command) : bool := negb (is_undeploy cmd).

(** The status [_clean_old_apps] reads in state [c], the state it leaves
    and the body of its loop for that status. *)
Definition status_at {C} `{!TomcatCluster C} (vhost : string) (c : C)
  : gmap string AppStatus :=
  (webapp_status "*" vhost c).1.

Definition after_status {C} `{!TomcatCluster C} (vhost : string) (c : C) : C :=
  (webapp_status "*" vhost c).2.

Definition clean_body {C} `{!TomcatCluster C} (self : Config)
    (vhost : string) (c : C) : webapp → M C unit :=
  _clean_old_app self (status_at vhost c) (webapp_paths (status_at vhost c)).1
    (webapp_paths (status_at vhost c)).2 vhost.

(** The memory query of [_get_memory], the nodes it finds short of memory
    in state [c] and the state it leaves. *)
Definition pools_query (self : Config) (hosts : option (list string))
  : command :=
  cmd_find_pools_over (100 - required_memory self) hosts.

Definition short_at {C} `{!TomcatCluster C} (self : Config)
    (hosts : option (list string)) (c : C) : gmap string (list string) :=
  short_nodes (run_command (pools_query self hosts) c).1.

Definition after_query {C} `{!TomcatCluster C} (self : Config)
    (hosts : option (list string)) (c : C) : C :=
  (run_command (pools_query self hosts) c).2.

(** The state in which the loop of [_wait_for_free_mem], entered in state
    [c], makes its check number [k] (from 0) when the [k] checks before
    found the nodes short of memory: each is followed by one sleep. *)
Fixpoint check_state {C} `{!TomcatCluster C} (self : Config)
    (hosts : list string) (k : nat) (c : C) : C :=
  match k with
  | O => c
  | S k' =>
      check_state self hosts k'
        (elapse (poll_interval self) (after_query self (Some hosts) c))
  end.

(** The nodes [_check_memory] names, and the state in which it enters
    [_wait_for_free_mem]: after its own query and the [run_gc] command. *)
Definition short_hosts {C} `{!TomcatCluster C} (self : Config) (c : C)
  : list string :=
  (map_to_list (short_at self None c)).*1.

Definition gc_state {C} `{!TomcatCluster C} (self : Config) (c : C) : C :=
  (run_command (cmd_run_gc (short_hosts self c)) (after_query self None c)).2.

(** A context that one status read shows coherent and started, the
    contexts of a list that it does not, and a list it shows all started. *)
Definition app_started (stats : gmap string AppStatus) (ctx : string) : bool :=
  match stats !! ctx with
  | Some cs =>
      negb (bool_decide (st_coherent cs = false)
            || bool_decide (st_stateName cs ≠ "STARTED"))
  | None => false
  end.

Definition failed_of (stats : gmap string AppStatus) (ctx_list : list string)
  : list string :=
  filter (fun ctx => app_started stats ctx = false) ctx_list.

Definition all_started (stats : gmap string AppStatus)
    (ctx_list : list string) : Prop :=
  ∀ ctx, ctx ∈ ctx_list →
    ∃ cs, stats !! ctx = Some cs
          ∧ st_coherent cs = true ∧ st_stateName cs = "STARTED".

(** What [deploy] does before it waits for the applications. *)
Definition before_wait {C} `{!TomcatCluster C} (self : Config) (fuel : nat)
    (new_apps : list (string * webapp)) (vhost : string)
  : M C (gmap string (gmap string (list string))) :=
  _clean_old_apps self new_apps vhost ;;;
  (if check_memory self then _check_memory self fuel ;;; ret tt else ret tt) ;;;
  _deploy new_apps vhost.

(** The [undeploy] commands of a trace. *)
Definition undeploys (t : list event) : list command :=
  filter (fun cmd => is_undeploy cmd = true) (commands t).

(** A cluster that answers from a script: each status read and each
    [find_pools_over] takes the next answer, the last one is repeated;
    every other command answers with the empty dictionary. *)
Record script := {
  statuses : list (gmap string AppStatus);
  pools : list (gmap string (list string))
}.

Definition script_status (c : script) : gmap string AppStatus * script :=
  match statuses c with
  | [] => (∅, c)
  | [s] => (s, c)
  | s :: rest => (s, {| statuses := rest; pools := pools c |})
  end.

Definition script_command (cmd : command) (c : script)
  : gmap string (list string) * script :=
  match cmd with
  | cmd_find_pools_over _ _ =>
      match pools c with
      | [] => (∅, c)
      | [p] => (p, c)
      | p :: rest => (p, {| statuses := statuses c; pools := rest |})
      end
  | _ => (∅, c)
  end.

#[export] Instance scripted_cluster : TomcatCluster script := {|
  webapp_status _ _ := script_status;
  run_command := script_command;
  elapse _ c := c
|}.

(** ** Example clusters and batches *)

Definition node_details (node path : string) : ClusterDetails :=
  {| cd_path := {[node := path]}; cd_stateName := {[node := "STARTED"]} |}.

(** An application started on [node1], the only node. *)
Definition started_app (path : string) : AppStatus :=
  {| st_path := path; st_coherent := true; st_stateName := "STARTED";
     st_presentOn := ["node1"];
     st_clusterDetails := node_details "node1" path |}.

(** An application that only [node1] of the cluster has: the cluster-wide
    path is not the path [node1] reports. *)
Definition partial_app (path : string) : AppStatus :=
  {| st_path := ""; st_coherent := false; st_stateName := "STARTED";
     st_presentOn := ["node1"];
     st_clusterDetails := node_details "node1" path |}.

Definition one_version : script :=
  {| statuses := [ {["v9" := started_app "/app"]};
                   {["v9" := started_app "/app"; "v10" := started_app "/app"]} ];
     pools := [] |}.

Definition two_versions : script :=
  {| statuses := [ {["v8" := started_app "/app"; "v9" := started_app "/app"]} ];
     pools := [] |}.

Definition v9_and_v10 : script :=
  {| statuses := [ {["v9" := started_app "/app"; "v10" := started_app "/app"]} ];
     pools := [] |}.

Definition partial_cluster : script :=
  {| statuses := [ {["/app##1" := partial_app "/app"]} ]; pools := [] |}.

Definition serving : script :=
  {| statuses := [ {["/b" := started_app "/b"; "/x" := started_app "/p"]} ];
     pools := [] |}.

Definition started : script :=
  {| statuses := [ {["/a" := started_app "/a"]} ]; pools := [] |}.

Definition never_visible : script := {| statuses := []; pools := [] |}.

Definition low_memory : script :=
  {| statuses := []; pools := [ {["node1" := ["CMS Old Gen"]]} ] |}.

Definition late_recovery : script :=
  {| statuses := [];
     pools := [ {["node1" := ["CMS Old Gen"]]}; {["node1" := ["CMS Old Gen"]]};
                {["node1" := ["CMS Old Gen"]]}; {["node1" := ["CMS Old Gen"]]};
                ∅ ] |}.

Definition noisy : script :=
  {| statuses := [];
     pools := [ {["node1" := ["Par Eden Space"; "Par Survivor Space"];
                  "node2" := ["CMS Old Gen"]]} ] |}.

Definition gc_10_5 : Config :=
  {| undeploy_on_error := true; poll_interval := 5; deploy_wait_time := 30;
     gc_wait_time := 10; required_memory := 50; check_memory := true;
     auto_gc := true; kill_sessions := false |}.

Definition zero_interval : Config :=
  {| undeploy_on_error := true; poll_interval := 0; deploy_wait_time := 1;
     gc_wait_time := 30; required_memory := 50; check_memory := true;
     auto_gc := true; kill_sessions := false |}.

Definition app_v10 : list (string * webapp) :=
  [("app##10.war", ("v10", "/app", Some "10"))].

Definition app_v8 : list (string * webapp) :=
  [("app##8.war", ("v8", "/app", Some "8"))].

Definition app_2 : list (string * webapp) :=
  [("app##2.war", ("/app##2", "/app", Some "2"))].

Definition app_a : list (string * webapp) := [("a.war", ("/a", "/a", None))].

Definition apps_p_b : list (string * webapp) :=
  [("p.war", ("/p", "/p", None)); ("b.war", ("/b", "/b", None))].

Definition apps_b_p : list (string * webapp) :=
  [("b.war", ("/b", "/b", None)); ("p.war", ("/p", "/p", None))].

(** ** The progress callback

    [events.UPLOAD], [events.CMD_START] and [events.CMD_END] are constants
    of a module the deployer imports: they are parameters here, of a type
    [E] of hashable values.  The keyword arguments of the callback are a
    record; a field is [None] when the key is absent. *)

Record ProgressArgs (E : Type) := {
  pa_event : option E;
  pa_position : option Z;
  pa_total : option Z;
  pa_filename : option string;
  pa_url : option string;
  pa_command : option string;
  pa_args : option (list string);
  pa_node : option string
}.
Arguments pa_event {E} _.
Arguments pa_position {E} _.
Arguments pa_total {E} _.
Arguments pa_filename {E} _.
Arguments pa_url {E} _.
Arguments pa_command {E} _.
Arguments pa_args {E} _.
Arguments pa_node {E} _.

(** What is written to [self.log]: [log.debug(fmt, evnt)] and
    [log.info(fmt, a, b)]. *)
Inductive log_line (E : Type) :=
| LogDebug (fmt : string) (evnt : ProgressArgs E)
| LogInfo (fmt : string) (a b : string).
Arguments LogDebug {E} fmt evnt.
Arguments LogInfo {E} fmt a b.

(** The errors of the subscripts [evnt[key]] and [evnt['args'][0]]. *)
Inductive log_error :=
| LogKeyError (key : string)
| LogIndexError.

(** A handler returns or raises, and leaves the lines it has logged. *)
Definition L (E A : Type) : Type := (log_error + A) * list (log_line E).

Definition lret {E A} (a : A) : L E A := (inr a, []).

Definition lbind {E A B} (m : L E A) (f : A -> L E B) : L E B :=
  match m with
  | (inl e, t) => (inl e, t)
  | (inr a, t) => ((f a).1, t ++ (f a).2)
  end.

Definition log {E} (l : log_line E) : L E unit := (inr tt, [l]).

(** [evnt[key]]. *)
Definition item {E A} (key : string) (v : option A) : L E A :=
  match v with
  | Some a => lret a
  | None => (inl (LogKeyError key), [])
  end.

(** [l[0]]. *)
Definition first_item {E} (l : list string) : L E string :=
  match l with
  | a :: _ => lret a
  | [] => (inl LogIndexError, [])
  end.

Inductive handler := log_upload_status | log_cmd_status.

Section Progress.
Context {E : Type} `{Countable E}.
Variables UPLOAD CMD_START CMD_END : E.

Definition _log_upload_status (evnt : ProgressArgs E) : L E unit :=
  lbind (log (LogDebug "Received upload progress event: %s" evnt)) (fun _ =>
  lbind (item "position" (pa_position evnt)) (fun position =>
  if bool_decide (position = 0)
  then
    lbind (item "filename" (pa_filename evnt)) (fun filename =>
    lbind (item "url" (pa_url evnt)) (fun url =>
    log (LogInfo "Starting to upload %s to %s" filename url)))
  else
    lbind (item "total" (pa_total evnt)) (fun total =>
    if bool_decide (position = total)
    then
      lbind (item "filename" (pa_filename evnt)) (fun filename =>
      lbind (item "url" (pa_url evnt)) (fun url =>
      log (LogInfo "Completed uploading %s to %s" filename url)))
    else lret tt))).

(** The dictionary [msg] of [_log_cmd_status]; a key written later in the
    literal replaces an equal one written before. *)
Definition cmd_messages : gmap E (gmap string string) :=
  <[CMD_END := {["deploy" := "Successfully deployed %s to %s";
                 "undeploy" := "Successfully undeployed %s from %s"]}]>
    (<[CMD_START := {["deploy" := "Attempting to deploy %s to %s";
                      "undeploy" := "Attempting to undeploy %s from %s"]}]> ∅).

Definition _log_cmd_status (evnt : ProgressArgs E) : L E unit :=
  lbind (item "event" (pa_event evnt)) (fun ec =>
  lbind (item "command" (pa_command evnt)) (fun cmd =>
  match cmd_messages !! ec with
  | Some by_cmd =>
      match by_cmd !! cmd with
      | Some fmt =>
          lbind (item "args" (pa_args evnt)) (fun args =>
          lbind (first_item args) (fun arg0 =>
          lbind (item "node" (pa_node evnt)) (fun node =>
          log (LogInfo fmt arg0 node))))
      | None => lret tt
      end
  | None => lret tt
  end)).

Definition handlers : gmap E handler :=
  <[CMD_END := log_cmd_status]>
    (<[CMD_START := log_cmd_status]> (<[UPLOAD := log_upload_status]> ∅)).

(** [event] stays [None] when the key is absent, and [None] is no key of
    [handlers]. *)
Definition _progress_callback (args : ProgressArgs E) : L E unit :=
  match pa_event args with
  | Some event =>
      match handlers !! event with
      | Some log_upload_status => _log_upload_status args
      | Some log_cmd_status => _log_cmd_status args
      | None => lret tt
      end
  | None => lret tt
  end.
End Progress.

(** ** Definitions used to state the further properties *)

(** The [deploy] commands of a trace. *)
Definition deploys (t : list event) : list command :=
  filter (fun cmd => is_deploy cmd = true) (commands t).

(** The commands of the memory guard. *)
Definition is_memory (cmd : command) : bool :=
  match cmd with
  | cmd_run_gc _ | cmd_find_pools_over _ _ => true
  | _ => false
  end.

Definition not_memory (cmd : command) : bool := negb (is_memory cmd).

(** The [deploy] command of one item of [new_apps]. *)
Definition deploy_command (vhost : string) (item : string * webapp) : command :=
  cmd_deploy item.1 item.2.1.1 vhost.

(** What [deploy] does before it issues the [deploy] commands. *)
Definition guards {C} `{!TomcatCluster C} (self : Config) (fuel : nat)
    (new_apps : list (string * webapp)) (vhost : string) : M C unit :=
  _clean_old_apps self new_apps vhost ;;;
  (if check_memory self then _check_memory self fuel ;;; ret tt else ret tt).

(** The commands a call of [deploy] may issue, given the configuration,
    the batch and the virtual host. *)
Definition allowed (self : Config) (new_apps : list (string * webapp))
    (vhost : string) (cmd : command) : bool :=
  match cmd with
  | cmd_deploy fn ctx vh =>
      bool_decide
        (vh = vhost
         ∧ (fn, ctx) ∈ (fun item : string * webapp => (item.1, item.2.1.1))
                         <$> new_apps)
  | cmd_undeploy ctx vh =>
      undeploy_on_error self
      && bool_decide (vh = vhost ∧ ctx ∈ ctx_names new_apps)
  | cmd_undeploy_old_versions vh => bool_decide (vh = vhost)
  | cmd_expire_sessions app vh =>
      kill_sessions self && bool_decide (vh = vhost)
  | cmd_run_gc hosts => check_memory self && auto_gc self
  | cmd_find_pools_over pct hosts =>
      check_memory self && bool_decide (pct = 100 - required_memory self)
  end.

(** The state of the cluster after a list of commands. *)
Definition after_commands {C} `{!TomcatCluster C} (cmds : list command)
    (c : C) : C :=
  foldl (fun c cmd => (run_command cmd c).2) c cmds.

(** The commands of [_undeploy_old_versions]. *)
Definition retire_commands (self : Config) (apps : list string)
    (vhost : string) : list command :=
  (if kill_sessions self
   then (fun app => cmd_expire_sessions app vhost) <$> apps
   else [])
  ++ [cmd_undeploy_old_versions vhost].

(** [all_paths] alone: the second component of the fold of
    [webapp_paths]. *)
Definition node_paths_of (kvs : list (string * string))
    (d : gmap string (list string)) : gmap string (list string) :=
  foldl (fun ap kv => setdefault_append kv.2 kv.1 ap) d kvs.

Definition all_paths_of (items : list (string * AppStatus))
    (d : gmap string (list string)) : gmap string (list string) :=
  foldl (fun ap ad =>
           node_paths_of (map_to_list (cd_path (st_clusterDetails ad.2))) ap)
        d items.

(** The number of sleeps after which [_wait_for_free_mem] gives up when
    the nodes stay short of memory. *)
Definition gc_sleeps (self : Config) : nat :=
  Z.to_nat (gc_wait_time self / poll_interval self + 1).

(** ** Further example clusters, configurations and batches *)

Definition no_gc : Config :=
  {| undeploy_on_error := true; poll_interval := 5; deploy_wait_time := 30;
     gc_wait_time := 30; required_memory := 50; check_memory := true;
     auto_gc := false; kill_sessions := false |}.

Definition no_rollback : Config :=
  {| undeploy_on_error := false; poll_interval := 5; deploy_wait_time := 30;
     gc_wait_time := 30; required_memory := 50; check_memory := true;
     auto_gc := true; kill_sessions := false |}.

Definition no_memory_check : Config :=
  {| undeploy_on_error := true; poll_interval := 5; deploy_wait_time := 30;
     gc_wait_time := 30; required_memory := 50; check_memory := false;
     auto_gc := true; kill_sessions := false |}.

Definition killing_sessions : Config :=
  {| undeploy_on_error := true; poll_interval := 5; deploy_wait_time := 30;
     gc_wait_time := 30; required_memory := 50; check_memory := true;
     auto_gc := true; kill_sessions := true |}.

Definition zero_poll_gc : Config :=
  {| undeploy_on_error := true; poll_interval := 0; deploy_wait_time := 30;
     gc_wait_time := 30; required_memory := 50; check_memory := true;
     auto_gc := true; kill_sessions := false |}.

Definition app_unversioned : list (string * webapp) :=
  [("app.war", ("/app", "/app", None))].

Definition app_v91 : list (string * webapp) :=
  [("app##91.war", ("v91", "/app", Some "91"))].

(** Two versions serve "/app"; after the first status read only "v9"
    does. *)
Definition retiring : script :=
  {| statuses := [ {["v8" := started_app "/app"; "v9" := started_app "/app"]};
                   {["v9" := started_app "/app"]} ];
     pools := [] |}.

(** "/a" is visible and started from the second status read on. *)
Definition starting : script :=
  {| statuses := [ ∅; {["/a" := started_app "/a"]} ]; pools := [] |}.

(** An upload event and a command event, with the event constants taken
    as the strings of their names. *)
Definition upload_event (position total : Z) : ProgressArgs string :=
  {| pa_event := Some "UPLOAD"; pa_position := Some position;
     pa_total := Some total; pa_filename := Some "/tmp/a.war";
     pa_url := Some "http://node1:8080/manager"; pa_command := None;
     pa_args := None; pa_node := None |}.

Definition command_event (ec cmd : string) (args : option (list string))
  : ProgressArgs string :=
  {| pa_event := Some ec; pa_position := None; pa_total := None;
     pa_filename := None; pa_url := None; pa_command := Some cmd;
     pa_args := args; pa_node := Some "node1" |}.

Definition callback : ProgressArgs string → L string unit :=
  _progress_callback "UPLOAD" "CMD_START" "CMD_END".

(** * Properties *)

(** Case analysis on membership in a list written out. *)
Ltac elem_cases H :=
  repeat (apply elem_of_cons in H as [->|H]);
  try (by apply elem_of_nil in H).

(** ** String order and [sorted] *)

Lemma str_leb_refl (s : string) : str_leb s s = true.
Proof.
  induction s as [|a s IH]; simpl; [done|].
  by rewrite N.ltb_irrefl.
Qed.

Lemma str_leb_total (s t : string) : str_leb s t = true ∨ str_leb t s = true.
Proof.
  revert t; induction s as [|a s IH]; intros [|b t]; simpl; auto.
  destruct (N.ltb_spec (N_of_ascii a) (N_of_ascii b)),
           (N.ltb_spec (N_of_ascii b) (N_of_ascii a)); auto.
Qed.

Lemma str_leb_trans (s t u : string) :
  str_leb s t = true → str_leb t u = true → str_leb s u = true.
Proof.
  revert t u; induction s as [|a s IH]; intros [|b t] [|c u]; simpl; try done.
  destruct (N.ltb_spec (N_of_ascii a) (N_of_ascii b)),
           (N.ltb_spec (N_of_ascii b) (N_of_ascii a)),
           (N.ltb_spec (N_of_ascii b) (N_of_ascii c)),
           (N.ltb_spec (N_of_ascii c) (N_of_ascii b)),
           (N.ltb_spec (N_of_ascii a) (N_of_ascii c)),
           (N.ltb_spec (N_of_ascii c) (N_of_ascii a));
    try done; try lia; eauto.
Qed.

Lemma str_leb_antisym (s t : string) :
  str_leb s t = true → str_leb t s = true → s = t.
Proof.
  revert t; induction s as [|a s IH]; intros [|b t]; simpl; try done.
  destruct (N.ltb_spec (N_of_ascii a) (N_of_ascii b)),
           (N.ltb_spec (N_of_ascii b) (N_of_ascii a)); try done; try lia.
  intros Hst Hts. f_equal; [|by apply IH].
  rewrite <- (ascii_N_embedding a), <- (ascii_N_embedding b).
  f_equal. lia.
Qed.

Lemma elem_of_insert_sorted (x y : string) (l : list string) :
  y ∈ insert_sorted x l ↔ y = x ∨ y ∈ l.
Proof.
  induction l as [|z l IH]; simpl.
  - rewrite list_elem_of_singleton, elem_of_nil. tauto.
  - destruct (str_leb x z); rewrite !elem_of_cons; [tauto|].
    rewrite IH. tauto.
Qed.

Lemma elem_of_sorted (y : string) (l : list string) : y ∈ sorted l ↔ y ∈ l.
Proof.
  induction l as [|x l IH]; simpl; [done|].
  rewrite elem_of_insert_sorted, IH, elem_of_cons. tauto.
Qed.

Lemma length_insert_sorted (x : string) (l : list string) :
  length (insert_sorted x l) = S (length l).
Proof.
  induction l as [|z l IH]; simpl; [done|].
  destruct (str_leb x z); simpl; congruence.
Qed.

Lemma length_sorted (l : list string) : length (sorted l) = length l.
Proof.
  induction l as [|x l IH]; simpl; [done|].
  by rewrite length_insert_sorted, IH.
Qed.

Lemma insert_sorted_StronglySorted (x : string) (l : list string) :
  StronglySorted str_le l → StronglySorted str_le (insert_sorted x l).
Proof.
  induction 1 as [|z l Hl IH Hz]; simpl.
  - repeat constructor.
  - destruct (str_leb x z) eqn:Hxz.
    + constructor; [by constructor|].
      constructor; [done|].
      eapply Forall_impl; [exact Hz|].
      intros w Hw. by eapply str_leb_trans.
    + constructor; [done|].
      apply Forall_forall. intros w Hw.
      apply elem_of_insert_sorted in Hw as [->|Hw].
      * destruct (str_leb_total x z) as [Hc|Hc]; [congruence|done].
      * by eapply Forall_forall in Hz.
Qed.

Lemma sorted_StronglySorted (l : list string) : StronglySorted str_le (sorted l).
Proof.
  induction l as [|x l IH]; simpl; [constructor|].
  by apply insert_sorted_StronglySorted.
Qed.

Lemma last_item_elem (l : list string) : l ≠ [] → last_item l ∈ l.
Proof.
  unfold last_item. induction l as [|x [|y l] IH]; intros Hl; [done| |].
  - simpl. apply list_elem_of_here.
  - change (List.last (x :: y :: l) "") with (List.last (y :: l) "").
    apply list_elem_of_further, IH. done.
Qed.

Lemma last_item_greatest (l : list string) (x : string) :
  StronglySorted str_le l → x ∈ l → str_le x (last_item l).
Proof.
  unfold last_item. induction 1 as [|z l Hl IH Hz]; intros Hx; [by apply elem_of_nil in Hx|].
  destruct l as [|y l].
  - simpl. apply list_elem_of_singleton in Hx as ->. apply str_leb_refl.
  - change (List.last (z :: y :: l) "") with (List.last (y :: l) "").
    apply elem_of_cons in Hx as [->|Hx]; [|by apply IH].
    eapply Forall_forall in Hz; [exact Hz|].
    by apply (last_item_elem (y :: l)).
Qed.

Lemma latest_elem (ctx : string) (apps : list string) :
  latest ctx apps ∈ ctx :: apps.
Proof.
  unfold latest. apply elem_of_sorted, last_item_elem.
  intros Hnil. apply (f_equal length) in Hnil.
  rewrite length_sorted in Hnil. done.
Qed.

Lemma latest_greatest (ctx : string) (apps : list string) (x : string) :
  x ∈ ctx :: apps → str_le x (latest ctx apps).
Proof.
  intros Hx. unfold latest.
  apply last_item_greatest; [apply sorted_StronglySorted|].
  by apply elem_of_sorted.
Qed.

(** ** The dictionaries of [_get_webapps] *)

Lemma lookup_setdefault_append (k x p : string) (d : gmap string (list string)) :
  default [] (setdefault_append k x d !! p)
  = default [] (d !! p) ++ (if bool_decide (k = p) then [x] else []).
Proof.
  unfold setdefault_append. case_bool_decide as Hk.
  - subst. by rewrite lookup_insert_eq.
  - rewrite lookup_insert_ne by done. by rewrite app_nil_r.
Qed.

Lemma setdefault_append_nonempty (k x p : string) (d : gmap string (list string)) :
  (∀ q, d !! q ≠ Some []) → setdefault_append k x d !! p ≠ Some [].
Proof.
  intros Hd. unfold setdefault_append.
  destruct (decide (k = p)) as [->|Hk].
  - rewrite lookup_insert_eq. intros [=Heq]. by destruct (default [] (d !! p)).
  - rewrite lookup_insert_ne by done. apply Hd.
Qed.

Lemma webapp_paths_fst (stats : gmap string AppStatus) :
  (webapp_paths stats).1 = paths_of (map_to_list stats) ∅.
Proof.
  unfold webapp_paths, paths_of.
  generalize (map_to_list stats).
  generalize (∅ : gmap string (list string)) at 1 3.
  generalize (∅ : gmap string (list string)).
  intros d2 d1 items. revert d1 d2.
  induction items as [|ad items IH]; intros d1 d2; simpl; [done|].
  apply IH.
Qed.

Lemma paths_of_lookup (items : list (string * AppStatus))
    (d : gmap string (list string)) (p : string) :
  default [] (paths_of items d !! p)
  = default [] (d !! p)
    ++ (filter (fun ad : string * AppStatus => st_path ad.2 = p) items).*1.
Proof.
  revert d. induction items as [|ad items IH]; intros d; simpl.
  - by rewrite app_nil_r.
  - unfold paths_of in *. simpl. rewrite IH, lookup_setdefault_append.
    rewrite filter_cons. case_bool_decide as Hp.
    + rewrite decide_True by done. by rewrite <- app_assoc.
    + rewrite decide_False by done. by rewrite app_nil_r.
Qed.

Lemma paths_of_nonempty (items : list (string * AppStatus))
    (d : gmap string (list string)) (p : string) :
  (∀ q, d !! q ≠ Some []) → paths_of items d !! p ≠ Some [].
Proof.
  revert d. induction items as [|ad items IH]; intros d Hd; simpl.
  - apply Hd.
  - apply IH. intros q. by apply setdefault_append_nonempty.
Qed.

Lemma webapp_paths_bucket (stats : gmap string AppStatus) (p : string) :
  default [] ((webapp_paths stats).1 !! p)
  = (filter (fun ad : string * AppStatus => st_path ad.2 = p)
            (map_to_list stats)).*1.
Proof. by rewrite webapp_paths_fst, paths_of_lookup, lookup_empty. Qed.

Lemma elem_of_webapp_paths (stats : gmap string AppStatus) (a p : string) :
  a ∈ default [] ((webapp_paths stats).1 !! p)
  ↔ ∃ d, stats !! a = Some d ∧ st_path d = p.
Proof.
  rewrite webapp_paths_bucket, list_elem_of_fmap. split.
  - intros ([a' d] & -> & Hin). apply list_elem_of_filter in Hin as [Hp Hin].
    apply elem_of_map_to_list in Hin. eauto.
  - intros (d & Hd & Hp). exists (a, d). split; [done|].
    apply list_elem_of_filter. split; [done|]. by apply elem_of_map_to_list.
Qed.

Lemma webapp_paths_bucket_NoDup (stats : gmap string AppStatus) (p : string) :
  NoDup (default [] ((webapp_paths stats).1 !! p)).
Proof.
  rewrite webapp_paths_bucket.
  assert (Hnd : NoDup (map_to_list stats).*1) by apply NoDup_fst_map_to_list.
  revert Hnd. generalize (map_to_list stats). intros items.
  induction items as [|ad items IH]; simpl; intros Hnd; [constructor|].
  apply NoDup_cons in Hnd as [Hnotin Hnd].
  rewrite filter_cons. destruct (decide (st_path ad.2 = p)); [|by apply IH].
  simpl. apply NoDup_cons. split; [|by apply IH].
  intros Hin. apply Hnotin.
  apply list_elem_of_fmap in Hin as (ad' & Heq & Hin).
  apply list_elem_of_filter in Hin as [_ Hin].
  apply list_elem_of_fmap. eauto.
Qed.

Lemma webapp_paths_one_bucket (stats : gmap string AppStatus)
    (a : string) (d : AppStatus) :
  stats !! a = Some d →
  (∃ bucket, (webapp_paths stats).1 !! st_path d = Some bucket
             ∧ a ∈ bucket ∧ NoDup bucket)
  ∧ (∀ p bucket, (webapp_paths stats).1 !! p = Some bucket →
                 a ∈ bucket → p = st_path d).
Proof.
  intros Hd. split.
  - assert (Hin : a ∈ default [] ((webapp_paths stats).1 !! st_path d)).
    { apply elem_of_webapp_paths. eauto. }
    pose proof (webapp_paths_bucket_NoDup stats (st_path d)) as Hnd.
    destruct ((webapp_paths stats).1 !! st_path d) as [bucket|] eqn:Hb.
    + exists bucket. auto.
    + simpl in Hin. by apply elem_of_nil in Hin.
  - intros p bucket Hb Hin.
    assert (Hin' : a ∈ default [] ((webapp_paths stats).1 !! p)).
    { by rewrite Hb. }
    apply elem_of_webapp_paths in Hin' as (d' & Hd' & Hp). congruence.
Qed.

Lemma get_webapps_run {C} `{!TomcatCluster C} (vhost : string) (c : C) :
  _get_webapps vhost c
  = (Ret ((webapp_status "*" vhost c).1,
          (webapp_paths (webapp_status "*" vhost c).1).1,
          (webapp_paths (webapp_status "*" vhost c).1).2),
     (webapp_status "*" vhost c).2,
     [EvStatus "*" vhost (webapp_status "*" vhost c).1]).
Proof.
  unfold _get_webapps, bind, c_webapp_status, ret.
  by destruct (webapp_status "*" vhost c).
Qed.

(** C9.  [_get_webapps] always returns, and in the view it returns every
    context of [stats] (byContext) is listed in exactly one bucket of
    [paths] (byPath): one bucket holds it, once, and no other bucket
    does. *)
Theorem get_webapps_context_in_one_bucket {C} `{!TomcatCluster C}
    (vhost : string) (c : C) :
  ∃ stats paths all_paths c' tr,
    _get_webapps vhost c = (Ret (stats, paths, all_paths), c', tr)
    ∧ ∀ a, a ∈ dom stats →
        ∃ p bucket,
          paths !! p = Some bucket ∧ a ∈ bucket ∧ NoDup bucket
          ∧ ∀ p' bucket', paths !! p' = Some bucket' → a ∈ bucket' → p' = p.
Proof.
  eexists _, _, _, _, _. split; [apply get_webapps_run|].
  intros a Ha. apply elem_of_dom in Ha as [d Hd].
  destruct (webapp_paths_one_bucket _ a d Hd) as [(bucket & Hb & Hin & Hnd) Huniq].
  exists (st_path d), bucket. auto.
Qed.

(** C2.  The version [_clean_old_apps] takes as the latest among the new
    context and the contexts serving its path is one of them and is the
    greatest under the lexicographic order of the context strings, not
    under the order of the numbers in them: among "v9" and "v10", and with
    a new "v8" beside them, "v9" is the latest, and it is "v9" that
    [deploy] names as the newer version when "v9" and "v10" serve the path
    of the new "v8". *)
Theorem latest_is_lexicographic_greatest (ctx : string) (apps : list string) :
  latest ctx apps ∈ ctx :: apps
  ∧ (∀ x, x ∈ ctx :: apps → str_leb x (latest ctx apps) = true)
  ∧ latest "v10" ["v9"] = "v9"
  ∧ latest "v9" ["v10"] = "v9"
  ∧ latest "v8" ["v9"; "v10"] = "v9"
  ∧ latest "v8" ["v10"; "v9"] = "v9"
  ∧ outcome_of (deploy default_config 0 app_v8 "localhost" v9_and_v10)
    = Raise (TomcatError (SupersededByNewerVersion "v9" "/app" "v8")).
Proof.
  split; [apply latest_elem|].
  split; [intros x Hx; by apply latest_greatest|].
  repeat split; vm_compute; reflexivity.
Qed.

(** ** The memory query *)

Lemma get_memory_run {C} `{!TomcatCluster C} (self : Config)
    (percentage : Z) (hosts : option (list string)) (c : C) :
  let cmd := cmd_find_pools_over (100 - required_memory self) hosts in
  _get_memory self percentage hosts c
  = (Ret (short_nodes (run_command cmd c).1), (run_command cmd c).2,
     [EvCommand cmd]).
Proof.
  simpl. unfold _get_memory, bind, c_run_command, ret, short_nodes.
  by destruct (run_command _ c).
Qed.

Lemma ignore_filter_noise (pools : list string) :
  (∀ x, x ∈ pools → x ∈ ignore_pools) → ignore_filter pools = [].
Proof.
  intros Hall. unfold ignore_filter.
  induction pools as [|x pools IH]; [done|].
  rewrite filter_cons, decide_False.
  - apply IH. intros y Hy. apply Hall. by apply list_elem_of_further.
  - intros Hx. apply Hx, Hall. apply list_elem_of_here.
Qed.

(** C8.  Whatever [required_memory] is, a node for which every pool that
    [find_pools_over] reports is one of the two ignored pools is not in
    the dictionary [_get_memory] returns. *)
Theorem get_memory_drops_noise_only_node {C} `{!TomcatCluster C}
    (self : Config) (percentage : Z) (hosts : option (list string)) (c : C)
    (node : string) :
  (∀ pools,
     (run_command (cmd_find_pools_over (100 - required_memory self) hosts) c).1
       !! node = Some pools →
     ∀ x, x ∈ pools → x ∈ ignore_pools) →
  ∃ mem c' tr,
    _get_memory self percentage hosts c = (Ret mem, c', tr)
    ∧ mem !! node = None.
Proof.
  intros Hnoise. eexists _, _, _. split; [apply get_memory_run|].
  unfold short_nodes. apply map_lookup_filter_None.
  destruct (_ !! node) as [pools|] eqn:Hnode; [right|by left].
  intros pools' [= <-]. simpl.
  rewrite (ignore_filter_noise pools) by (apply Hnoise; done).
  simpl. lia.
Qed.

(** ** Running computations *)

Lemma bind_ret_l {C A B} (m : M C A) (f : A → M C B) (c c1 : C) (a : A)
    (t1 : list event) :
  m c = (Ret a, c1, t1) →
  bind m f c = ((f a c1).1.1, (f a c1).1.2, t1 ++ (f a c1).2).
Proof. intros Hm. unfold bind. rewrite Hm. by destruct (f a c1) as [[??]?]. Qed.

Lemma bind_raise_l {C A B} (m : M C A) (f : A → M C B) (c c1 : C) (e : exn)
    (t1 : list event) :
  m c = (Raise e, c1, t1) → bind m f c = (Raise e, c1, t1).
Proof. intros Hm. unfold bind. by rewrite Hm. Qed.

Lemma bind_assoc {C A B D} (m : M C A) (f : A → M C B) (g : B → M C D)
    (c : C) :
  bind (bind m f) g c = bind m (fun a => bind (f a) g) c.
Proof.
  unfold bind. destruct (m c) as [[[a|e|] c1] t1]; try done.
  destruct (f a c1) as [[[b|e|] c2] t2]; try done.
  destruct (g b c2) as [[o c3] t3]. by rewrite app_assoc.
Qed.

Lemma bind_assoc3 {C A B D E} (m1 : M C A) (m2 : M C B) (m3 : M C D)
    (k : D → M C E) (c : C) :
  bind (bind m1 (fun _ => bind m2 (fun _ => m3))) k c
  = bind m1 (fun _ => bind m2 (fun _ => bind m3 k)) c.
Proof.
  unfold bind. destruct (m1 c) as [[[a|e|] c1] t1]; try done.
  destruct (m2 c1) as [[[b|e|] c2] t2]; try done.
  destruct (m3 c2) as [[[d|e|] c3] t3]; try (by rewrite ?app_assoc).
  destruct (k d c3) as [[o c4] t4]. by rewrite !app_assoc.
Qed.

Lemma for_each_app {C A} (l1 l2 : list A) (body : A → M C unit) (c c1 : C)
    (t1 : list event) :
  for_each l1 body c = (Ret tt, c1, t1) →
  for_each (l1 ++ l2) body c
  = ((for_each l2 body c1).1.1, (for_each l2 body c1).1.2,
     t1 ++ (for_each l2 body c1).2).
Proof.
  revert c t1. induction l1 as [|x l1 IH]; intros c t1 Hrun; simpl in *.
  - injection Hrun as <- <-. by destruct (for_each l2 body c) as [[??]?].
  - unfold bind in *. destruct (body x c) as [[[[]|e|] c2] t2]; try done.
    destruct (for_each l1 body c2) as [[o c3] t3] eqn:Hrest.
    injection Hrun as -> -> <-.
    rewrite (IH _ _ Hrest). simpl. by rewrite app_assoc.
Qed.

Section Behaves.
Context {C : Type} `{!TomcatCluster C}.
Variable halting : bool.
Variable ok : command → bool.

Lemma behaves_bind {A B} (m : M C A) (f : A → M C B) (c : C) :
  behaves halting ok (m c) → (∀ a c1, behaves halting ok (f a c1)) →
  behaves halting ok (bind m f c).
Proof.
  unfold behaves, bind. intros [Hm Ht] Hf.
  destruct (m c) as [[[a|e|] c1] t1]; simpl in *;
    [|split; [intros Hh; specialize (Hm Hh); congruence|assumption]..].
  specialize (Hf a c1). destruct (f a c1) as [[o c2] t2]; simpl in *.
  destruct Hf. split; [done|]. by apply Forall_app.
Qed.

Lemma behaves_ret {A} (a : A) (c : C) : behaves halting ok (ret a c).
Proof. by split. Qed.

Lemma behaves_raise {A} (e : exn) (c : C) :
  behaves halting ok (raise (A:=A) e c).
Proof. by split. Qed.

Lemma behaves_getitem {A} (d : gmap string A) (k : string) (c : C) :
  behaves halting ok (getitem d k c).
Proof. unfold getitem. by destruct (d !! k); split. Qed.

Lemma behaves_for_each {A} (l : list A) (body : A → M C unit) (c : C) :
  (∀ x c, behaves halting ok (body x c)) →
  behaves halting ok (for_each l body c).
Proof.
  intros Hbody. revert c. induction l as [|x l IH]; intros c; simpl.
  - apply behaves_ret.
  - apply behaves_bind; auto.
Qed.

Lemma behaves_for_collect {A R} (l : list A) (rv : gmap string R)
    (body : A → M C (string * R)) (c : C) :
  (∀ x c, behaves halting ok (body x c)) →
  behaves halting ok (for_collect l rv body c).
Proof.
  intros Hbody. revert rv c. induction l as [|x l IH]; intros rv c; simpl.
  - apply behaves_ret.
  - apply behaves_bind; auto.
Qed.

Lemma behaves_run_command (cmd : command) (c : C) :
  ok cmd = true → behaves halting ok (c_run_command cmd c).
Proof.
  intros Hcmd. unfold c_run_command. destruct (run_command cmd c).
  split; [done|]. by repeat constructor.
Qed.

Lemma behaves_webapp_status (app vhost : string) (c : C) :
  behaves halting ok (c_webapp_status app vhost c).
Proof.
  unfold c_webapp_status. destruct (webapp_status app vhost c).
  split; [done|]. by repeat constructor.
Qed.

Lemma behaves_time_sleep (secs : Z) (c : C) :
  behaves halting ok (time_sleep secs c).
Proof.
  unfold time_sleep. case_bool_decide; split; try done.
  by repeat constructor.
Qed.

Lemma behaves_get_webapps (vhost : string) (c : C) :
  behaves halting ok (_get_webapps vhost c).
Proof. rewrite get_webapps_run. split; [done|]. by repeat constructor. Qed.

Variable self : Config.

Section Clean.
Hypothesis ok_expire_sessions :
  ∀ app vhost, ok (cmd_expire_sessions app vhost) = true.
Hypothesis ok_undeploy_old_versions :
  ∀ vhost, ok (cmd_undeploy_old_versions vhost) = true.

Lemma behaves_undeploy_old_versions (path : string)
    (apps : list string) (vhost : string) (c : C) :
  behaves halting ok (_undeploy_old_versions self path apps vhost c).
Proof.
  unfold _undeploy_old_versions.
  apply behaves_bind.
  { destruct (kill_sessions self); [|apply behaves_ret].
    apply behaves_for_each. intros app c1.
    apply behaves_bind; [by apply behaves_run_command|].
    intros; apply behaves_ret. }
  intros _ c1. apply behaves_bind; [by apply behaves_run_command|].
  intros _ c2. apply behaves_bind; [apply behaves_get_webapps|].
  intros r c3. apply behaves_bind; [apply behaves_getitem|].
  intros served c4. case_bool_decide; by split.
Qed.

Lemma behaves_clean_old_app (stats : gmap string AppStatus)
    (paths all_paths : gmap string (list string)) (vhost : string)
    (app : webapp) (c : C) :
  behaves halting ok (_clean_old_app self stats paths all_paths vhost app c).
Proof.
  destruct app as [[ctx path] ver]. unfold _clean_old_app.
  apply behaves_bind; [by destruct (stats !! ctx); split|].
  intros _ c1. destruct (all_paths !! path); [|by split].
  destruct ver as [v|].
  - destruct (paths !! path) as [served|] eqn:Hserved.
    + case_bool_decide; [|by split]. case_bool_decide; [by split|].
      apply behaves_undeploy_old_versions.
    + apply behaves_bind; [apply behaves_getitem|]. by split.
  - apply behaves_bind; [apply behaves_getitem|]. by split.
Qed.

Lemma behaves_clean_old_apps (new_apps : list (string * webapp))
    (vhost : string) (c : C) :
  behaves halting ok (_clean_old_apps self new_apps vhost c).
Proof.
  unfold _clean_old_apps. apply behaves_bind; [apply behaves_get_webapps|].
  intros r c1. apply behaves_for_each. intros app c2.
  apply behaves_clean_old_app.
Qed.
End Clean.
End Behaves.

Section Resolver.
Context {C : Type} `{!TomcatCluster C}.
Variable self : Config.

Lemma clean_old_app_collision (stats : gmap string AppStatus)
    (paths all_paths : gmap string (list string)) (vhost ctx path : string)
    (ver : option string) (d : AppStatus) (c : C) :
  stats !! ctx = Some d →
  _clean_old_app self stats paths all_paths vhost (ctx, path, ver) c
  = (Raise (TomcatError (ContextCollision ctx (st_presentOn d))), c, []).
Proof. intros Hd. unfold _clean_old_app, bind. by rewrite Hd. Qed.

Lemma clean_old_apps_run (new_apps : list (string * webapp)) (vhost : string)
    (c : C) :
  let stats := (webapp_status "*" vhost c).1 in
  let r := for_each new_apps.*2
             (_clean_old_app self stats (webapp_paths stats).1
                (webapp_paths stats).2 vhost)
             (webapp_status "*" vhost c).2 in
  _clean_old_apps self new_apps vhost c
  = (r.1.1, r.1.2, EvStatus "*" vhost stats :: r.2).
Proof.
  simpl. unfold _clean_old_apps.
  by rewrite (bind_ret_l _ _ _ _ _ _ (get_webapps_run vhost c)).
Qed.

Lemma deploy_clean_raises (fuel : nat) (new_apps : list (string * webapp))
    (vhost : string) (c c1 : C) (e : exn) (t : list event) :
  _clean_old_apps self new_apps vhost c = (Raise e, c1, t) →
  deploy self fuel new_apps vhost c = (Raise e, c1, t).
Proof. intros Hclean. unfold deploy. by apply bind_raise_l. Qed.

Lemma for_each_raises {A} (ok : command → bool) (l : list A)
    (body : A → M C unit) (x : A) (c : C) :
  (∀ y c1, behaves true ok (body y c1)) →
  x ∈ l → (∀ c1, ∃ e, body x c1 = (Raise e, c1, [])) →
  ∃ e c' t, for_each l body c = (Raise e, c', t) ∧ Forall (event_ok ok) t.
Proof.
  intros Hq Hin Hx. revert c.
  induction l as [|y l IH]; intros c; [by apply elem_of_nil in Hin|].
  simpl. unfold bind. destruct (Hq y c) as [Hd Ht].
  destruct (body y c) as [[[[]|e|] c1] t1] eqn:Hy; simpl in *.
  - assert (Hin' : x ∈ l).
    { apply elem_of_cons in Hin as [->|Hin]; [|done].
      destruct (Hx c) as [e He]. congruence. }
    destruct (IH Hin' c1) as (e & c' & t & -> & Hnd).
    eexists _, _, _. split; [done|]. by apply Forall_app.
  - eauto 6.
  - by destruct Hd.
Qed.
End Resolver.

(** ** The conflict check of [deploy] *)

Section ConflictCheck.
Context {C : Type} `{!TomcatCluster C}.
Variable self : Config.

(** [deploy] fails with what the loop of [_clean_old_apps] raises at the
    first unit that does not pass. *)
Lemma deploy_fails_at_unit (fuel : nat) (pre post : list (string * webapp))
    (fn : string) (app : webapp) (vhost : string) (c c1 c2 : C) (e : exn)
    (t1 t2 : list event) :
  for_each pre.*2 (clean_body self vhost c) (after_status vhost c)
  = (Ret tt, c1, t1) →
  clean_body self vhost c app c1 = (Raise e, c2, t2) →
  deploy self fuel (pre ++ (fn, app) :: post) vhost c
  = (Raise e, c2, EvStatus "*" vhost (status_at vhost c) :: t1 ++ t2).
Proof.
  intros Hpre Happ. apply deploy_clean_raises.
  rewrite clean_old_apps_run. simpl.
  rewrite fmap_app, fmap_cons. simpl.
  fold (status_at vhost c) (after_status vhost c).
  fold (clean_body self vhost c).
  rewrite (for_each_app _ _ _ _ _ _ Hpre). simpl.
  by rewrite (bind_raise_l _ _ _ _ _ _ Happ).
Qed.

Lemma clean_body_superseded (vhost ctx path v : string)
    (served : list string) (c c1 : C) :
  status_at vhost c !! ctx = None →
  is_Some ((webapp_paths (status_at vhost c)).2 !! path) →
  (webapp_paths (status_at vhost c)).1 !! path = Some served →
  (1 < length served)%nat →
  ctx ≠ latest ctx served →
  clean_body self vhost c (ctx, path, Some v) c1
  = (Raise (TomcatError (SupersededByNewerVersion (latest ctx served) path ctx)),
     c1, []).
Proof.
  intros Hctx [nodes Hall] Hserved Hlen Hnew.
  unfold clean_body, _clean_old_app, bind. rewrite Hctx. simpl.
  rewrite Hall, Hserved.
  rewrite bool_decide_true by done. by rewrite bool_decide_true by done.
Qed.

Lemma clean_body_partial (vhost ctx path v : string) (c c1 : C) :
  status_at vhost c !! ctx = None →
  is_Some ((webapp_paths (status_at vhost c)).2 !! path) →
  (webapp_paths (status_at vhost c)).1 !! path = None →
  clean_body self vhost c (ctx, path, Some v) c1
  = (Raise (KeyError path), c1, []).
Proof.
  intros Hctx [nodes Hall] Hserved.
  unfold clean_body, _clean_old_app, bind. rewrite Hctx. simpl.
  rewrite Hall, Hserved. unfold getitem. by rewrite Hserved.
Qed.
End ConflictCheck.

(** C1, as the code has it.  A versioned unit whose context is new, whose
    path is served on some node and by two or more existing contexts, and
    which the loop of [_clean_old_apps] reaches, makes [deploy] fail with
    [SupersededByNewerVersion] naming the latest context whenever the
    unit's context is not the latest; the latest is the greatest of the
    unit's context and the existing ones in the lexicographic order. *)
Theorem deploy_superseded_by_newer_version {C} `{!TomcatCluster C}
    (self : Config) (fuel : nat) (pre post : list (string * webapp))
    (fn ctx path v vhost : string) (served : list string) (c c1 : C)
    (t1 : list event) :
  status_at vhost c !! ctx = None →
  is_Some ((webapp_paths (status_at vhost c)).2 !! path) →
  (webapp_paths (status_at vhost c)).1 !! path = Some served →
  (1 < length served)%nat →
  ctx ≠ latest ctx served →
  for_each pre.*2 (clean_body self vhost c) (after_status vhost c)
  = (Ret tt, c1, t1) →
  deploy self fuel (pre ++ (fn, (ctx, path, Some v)) :: post) vhost c
  = (Raise (TomcatError (SupersededByNewerVersion (latest ctx served) path ctx)),
     c1, EvStatus "*" vhost (status_at vhost c) :: t1)
  ∧ latest ctx served ∈ served
  ∧ ∀ x, x ∈ ctx :: served → str_leb x (latest ctx served) = true.
Proof.
  intros Hctx Hall Hserved Hlen Hnew Hpre. split; [|split].
  - rewrite (deploy_fails_at_unit self fuel pre post fn _ vhost c c1 c1 _ t1 []
               Hpre (clean_body_superseded self _ _ _ _ _ _ _
                       Hctx Hall Hserved Hlen Hnew)).
    by rewrite app_nil_r.
  - pose proof (latest_elem ctx served) as Hin.
    apply elem_of_cons in Hin as [Heq|Hin]; [congruence|done].
  - intros x Hx. by apply latest_greatest.
Qed.

(** C3: what the code does where the claim asks for
    [PartialClusterDeployment].  For a versioned unit whose context is new
    and whose path is in [all_paths] but not in [paths], building the
    message reads [paths[path]], and [deploy] ends with that [KeyError]. *)
Theorem deploy_partial_cluster_key_error {C} `{!TomcatCluster C}
    (self : Config) (fuel : nat) (pre post : list (string * webapp))
    (fn ctx path v vhost : string) (c c1 : C) (t1 : list event) :
  status_at vhost c !! ctx = None →
  is_Some ((webapp_paths (status_at vhost c)).2 !! path) →
  (webapp_paths (status_at vhost c)).1 !! path = None →
  for_each pre.*2 (clean_body self vhost c) (after_status vhost c)
  = (Ret tt, c1, t1) →
  deploy self fuel (pre ++ (fn, (ctx, path, Some v)) :: post) vhost c
  = (Raise (KeyError path), c1, EvStatus "*" vhost (status_at vhost c) :: t1).
Proof.
  intros Hctx Hall Hserved Hpre.
  rewrite (deploy_fails_at_unit self fuel pre post fn _ vhost c c1 c1 _ t1 []
             Hpre (clean_body_partial self _ _ _ _ _ _ Hctx Hall Hserved)).
  by rewrite app_nil_r.
Qed.

(** C5, as the code has it.  When a unit of the batch has a context that
    is already in the status, [deploy] fails and no [deploy] command is in
    its trace; when the loop of [_clean_old_apps] reaches that unit, the
    failure is [ContextCollision] with the nodes of [presentOn]. *)
Theorem deploy_context_collision {C} `{!TomcatCluster C}
    (self : Config) (fuel : nat) (new_apps : list (string * webapp))
    (fn ctx path vhost : string) (ver : option string) (d : AppStatus)
    (c : C) :
  (fn, (ctx, path, ver)) ∈ new_apps →
  status_at vhost c !! ctx = Some d →
  (∃ e c' t,
     deploy self fuel new_apps vhost c = (Raise e, c', t)
     ∧ ∀ fn' ctx' vhost', EvCommand (cmd_deploy fn' ctx' vhost') ∉ t)
  ∧ (∀ pre post c1 t1,
       new_apps = pre ++ (fn, (ctx, path, ver)) :: post →
       for_each pre.*2 (clean_body self vhost c) (after_status vhost c)
       = (Ret tt, c1, t1) →
       deploy self fuel new_apps vhost c
       = (Raise (TomcatError (ContextCollision ctx (st_presentOn d))),
          c1, EvStatus "*" vhost (status_at vhost c) :: t1)).
Proof.
  intros Hin Hd. split.
  - destruct (for_each_raises not_deploy new_apps.*2 (clean_body self vhost c)
                (ctx, path, ver) (after_status vhost c))
      as (e & c' & t & Hrun & Hquiet).
    + intros y c1. by apply behaves_clean_old_app.
    + apply list_elem_of_fmap. by exists (fn, (ctx, path, ver)).
    + intros c1. eexists. by apply clean_old_app_collision.
    + exists e, c', (EvStatus "*" vhost (status_at vhost c) :: t).
      split.
      * apply deploy_clean_raises. rewrite clean_old_apps_run. simpl.
        fold (status_at vhost c) (after_status vhost c).
        fold (clean_body self vhost c). by rewrite Hrun.
      * intros fn' ctx' vhost' Hev.
        apply elem_of_cons in Hev as [?|Hev]; [done|].
        eapply Forall_forall in Hquiet; [|exact Hev]. done.
  - intros pre post c1 t1 -> Hpre.
    rewrite (deploy_fails_at_unit self fuel pre post fn _ vhost c c1 c1 _ t1 []
               Hpre (clean_old_app_collision self _ _ _ _ _ _ _ _ c1 Hd)).
    by rewrite app_nil_r.
Qed.

(** ** The memory guard *)

Section MemoryGuard.
Context {C : Type} `{!TomcatCluster C}.
Variable self : Config.

Lemma get_memory_at (percentage : Z) (hosts : option (list string)) (c : C) :
  _get_memory self percentage hosts c
  = (Ret (short_at self hosts c), after_query self hosts c,
     [EvCommand (pools_query self hosts)]).
Proof. apply get_memory_run. Qed.

Lemma time_sleep_run (secs : Z) (c : C) :
  0 ≤ secs → time_sleep secs c = (Ret tt, elapse secs c, [EvSleep secs]).
Proof. intros Hs. unfold time_sleep. by rewrite bool_decide_false by lia. Qed.

(** The loop of [_wait_for_free_mem] when its first [k] checks find the
    nodes short of memory before the wait is over, and check [k] either
    finds no node short or comes after the wait is over. *)
Lemma wait_for_free_mem_from_run (hosts : list string) (percentage : Z)
    (k : nat) :
  ∀ (fuel : nat) (wait_total : Z) (c : C),
    (k < fuel)%nat →
    0 ≤ poll_interval self →
    (∀ j, (j < k)%nat →
          (0 < size (short_at self (Some hosts) (check_state self hosts j c)))%nat
          ∧ wait_total + Z.of_nat j * poll_interval self ≤ gc_wait_time self) →
    size (short_at self (Some hosts) (check_state self hosts k c)) = 0%nat
    ∨ gc_wait_time self < wait_total + Z.of_nat k * poll_interval self →
    ∃ t,
      _wait_for_free_mem_from self fuel hosts percentage wait_total c
      = (Ret (bool_decide
                (size (short_at self (Some hosts) (check_state self hosts k c))
                 = 0%nat)),
         after_query self (Some hosts) (check_state self hosts k c), t)
      ∧ sleeps t = replicate k (poll_interval self)
      ∧ slept t = Z.of_nat k * poll_interval self.
Proof.
  induction k as [|k IH]; intros fuel wait_total c Hfuel Hpoll Hshort Hend;
    (destruct fuel as [|fuel]; [lia|]); simpl.
  - rewrite (bind_ret_l _ _ _ _ _ _ (get_memory_at percentage (Some hosts) c)).
    destruct Hend as [Hnone|Hover].
    + rewrite bool_decide_false by (simpl in Hnone; lia).
      rewrite bool_decide_true by done. eexists. split; [done|]. by split.
    + case_bool_decide as Hsome.
      * rewrite bool_decide_true by lia.
        rewrite bool_decide_false by lia. eexists. split; [done|]. by split.
      * rewrite bool_decide_true by lia. eexists. split; [done|]. by split.
  - rewrite (bind_ret_l _ _ _ _ _ _ (get_memory_at percentage (Some hosts) c)).
    destruct (Hshort 0%nat ltac:(lia)) as [Hs0 Hw0]. simpl in Hs0.
    rewrite bool_decide_true by done.
    rewrite bool_decide_false by lia.
    rewrite (bind_ret_l _ _ _ _ _ _
               (time_sleep_run _ (after_query self (Some hosts) c) Hpoll)).
    destruct (IH fuel (wait_total + poll_interval self)
                (elapse (poll_interval self) (after_query self (Some hosts) c)))
      as (t & -> & Hsl & Hst).
    + lia.
    + done.
    + intros j Hj. destruct (Hshort (S j) ltac:(lia)) as [Hsj Hwj].
      split; [done|]. lia.
    + destruct Hend as [Hnone|Hover]; [by left|right]. lia.
    + eexists. split; [done|]. simpl. rewrite Hsl, Hst. split; [done|]. lia.
Qed.

Lemma check_memory_run (fuel : nat) (c : C) :
  (0 < size (short_at self None c))%nat →
  auto_gc self = true →
  _check_memory self fuel c
  = (let r := _wait_for_free_mem self fuel (short_hosts self c)
                (100 - required_memory self) (gc_state self c) in
     ((if r.1.1 is Ret false
       then Raise (TomcatError (InsufficientMemory (short_hosts self c)))
       else r.1.1),
      r.1.2,
      [EvCommand (pools_query self None);
       EvCommand (cmd_run_gc (short_hosts self c))] ++ r.2)).
Proof.
  intros Hshort Hgc. unfold _check_memory.
  rewrite (bind_ret_l _ _ _ _ _ _ (get_memory_at _ None c)).
  rewrite bool_decide_false by lia. rewrite Hgc.
  unfold _perform_gc, bind, c_run_command.
  fold (short_hosts self c).
  destruct (run_command (cmd_run_gc (short_hosts self c))
              (after_query self None c)) as [rv c1] eqn:Hrun.
  assert (Hc1 : gc_state self c = c1) by (unfold gc_state; by rewrite Hrun).
  rewrite Hc1. simpl.
  destruct (_wait_for_free_mem self fuel (short_hosts self c)
              (100 - required_memory self) c1) as [[[[]|e|] c2] t2];
    unfold ret, raise; simpl; by rewrite ?app_nil_r.
Qed.
End MemoryGuard.

(** C4, as the code has it.  With [auto_gc], [gc_wait_time] 10 and
    [poll_interval] 5, once [_check_memory] has found nodes short of
    memory and run the garbage collection: if the checks of the loop keep
    finding those nodes short, it fails with [InsufficientMemory] after
    three sleeps, 15 seconds of accumulated wait (the check made after 10
    seconds does not yet give up); if one of the first four checks finds no
    node short, it returns [True] after as many sleeps as checks failed
    before. *)
Theorem check_memory_gc_wait_10_5 {C} `{!TomcatCluster C}
    (self : Config) (fuel : nat) (c : C) :
  auto_gc self = true →
  gc_wait_time self = 10 →
  poll_interval self = 5 →
  (0 < size (short_at self None c))%nat →
  (3 < fuel)%nat →
  let hosts := short_hosts self c in
  let short k :=
    size (short_at self (Some hosts) (check_state self hosts k (gc_state self c)))
  in
  ((∀ k, (k ≤ 3)%nat → (0 < short k)%nat) →
   ∃ c' t,
     _check_memory self fuel c
     = (Raise (TomcatError (InsufficientMemory hosts)), c', t)
     ∧ sleeps t = [5; 5; 5] ∧ slept t = 15)
  ∧ (∀ k, (k ≤ 3)%nat →
          (∀ j, (j < k)%nat → (0 < short j)%nat) → short k = 0%nat →
          ∃ c' t,
            _check_memory self fuel c = (Ret true, c', t)
            ∧ sleeps t = replicate k 5 ∧ slept t = 5 * Z.of_nat k).
Proof.
  intros Hgc Hwait Hpoll Hshort Hfuel hosts short. split.
  - intros Hnever.
    destruct (wait_for_free_mem_from_run self hosts (100 - required_memory self)
                3 fuel 0 (gc_state self c)) as (t & Hrun & Hsl & Hst).
    + done.
    + lia.
    + intros j Hj. split; [apply Hnever; lia|]. lia.
    + right. lia.
    + rewrite (check_memory_run self fuel c Hshort Hgc).
      unfold _wait_for_free_mem. fold hosts. rewrite Hrun.
      rewrite bool_decide_false
        by (specialize (Hnever 3%nat ltac:(lia)); unfold short in Hnever; lia).
      eexists _, _. split; [done|]. simpl.
      rewrite Hsl, Hst, Hpoll. by split.
  - intros k Hk Hbefore Hdrop.
    destruct (wait_for_free_mem_from_run self hosts (100 - required_memory self)
                k fuel 0 (gc_state self c)) as (t & Hrun & Hsl & Hst).
    + lia.
    + lia.
    + intros j Hj. split; [apply Hbefore; lia|]. lia.
    + by left.
    + rewrite (check_memory_run self fuel c Hshort Hgc).
      unfold _wait_for_free_mem. fold hosts. rewrite Hrun.
      rewrite bool_decide_true by done.
      eexists _, _. split; [done|]. simpl.
      rewrite Hsl, Hst, Hpoll. split; [done|]. lia.
Qed.

(** ** Waiting for the applications *)

Lemma check_app_step (stats : gmap string AppStatus) (ctx : string)
    (b : bool) (acc : list string) :
  match stats !! ctx with
  | Some cs =>
      if bool_decide (st_coherent cs = false)
         || bool_decide (st_stateName cs ≠ "STARTED")
      then (false, acc ++ [ctx])
      else (b, acc)
  | None => (false, acc ++ [ctx])
  end
  = (if app_started stats ctx then (b, acc) else (false, acc ++ [ctx])).
Proof.
  unfold app_started. destruct (stats !! ctx) as [cs|]; [|done].
  by destruct (bool_decide (st_coherent cs = false)
               || bool_decide (st_stateName cs ≠ "STARTED")).
Qed.

Lemma check_apps_from (stats : gmap string AppStatus) (l : list string) :
  ∀ (b : bool) (acc : list string),
    foldl
      (fun acc ctx =>
         match stats !! ctx with
         | Some cs =>
             if bool_decide (st_coherent cs = false)
                || bool_decide (st_stateName cs ≠ "STARTED")
             then (false, acc.2 ++ [ctx])
             else acc
         | None => (false, acc.2 ++ [ctx])
         end)
      (b, acc) l
    = (b && bool_decide (failed_of stats l = []), acc ++ failed_of stats l).
Proof.
  induction l as [|ctx l IH]; intros b acc; simpl.
  - by rewrite andb_true_r, app_nil_r.
  - rewrite (check_app_step stats ctx b acc).
    unfold failed_of in *. rewrite filter_cons.
    destruct (app_started stats ctx) eqn:Hctx.
    + rewrite decide_False by done. apply IH.
    + rewrite decide_True by done.
      rewrite IH, <- app_assoc. simpl. by rewrite andb_false_r.
Qed.

Lemma check_apps_eq (stats : gmap string AppStatus) (l : list string) :
  check_apps stats l
  = (bool_decide (failed_of stats l = []), failed_of stats l).
Proof. unfold check_apps. by rewrite check_apps_from. Qed.

Lemma all_started_failed_of (stats : gmap string AppStatus) (l : list string) :
  all_started stats l → failed_of stats l = [].
Proof.
  intros Hall. unfold failed_of.
  induction l as [|ctx l IH]; [done|].
  rewrite filter_cons.
  destruct (Hall ctx) as (cs & Hcs & Hco & Hst); [apply list_elem_of_here|].
  rewrite decide_False.
  - apply IH. intros x Hx. apply Hall. by apply list_elem_of_further.
  - unfold app_started. rewrite Hcs, Hco, Hst. done.
Qed.

Lemma failed_of_subseteq (stats : gmap string AppStatus) (l : list string) :
  failed_of stats l ⊆ l.
Proof. intros x Hx. by apply list_elem_of_filter in Hx as [_ Hx]. Qed.

Lemma failed_of_absent (stats : gmap string AppStatus) (l : list string)
    (ctx : string) :
  ctx ∈ l → stats !! ctx = None → ctx ∈ failed_of stats l.
Proof.
  intros Hin Hnone. apply list_elem_of_filter. split; [|done].
  unfold app_started. by rewrite Hnone.
Qed.

Lemma status_reads_app (t1 t2 : list event) :
  status_reads (t1 ++ t2) = status_reads t1 ++ status_reads t2.
Proof. apply omap_app. Qed.

Section Convergence.
Context {C : Type} `{!TomcatCluster C}.
Variable self : Config.
Variable ctx_list : list string.
Variable vhost : string.

Lemma wait_for_apps_from_exit (fuel : nat) (wait_total : Z)
    (failed_apps : option (list string)) (c : C) :
  ¬ wait_total < deploy_wait_time self →
  _wait_for_apps_from self fuel ctx_list vhost wait_total failed_apps c
  = (Ret failed_apps, c, []).
Proof. intros Hw. destruct fuel; simpl; by rewrite bool_decide_false. Qed.

Lemma wait_for_apps_from_step (fuel : nat) (wait_total : Z)
    (failed_apps : option (list string)) (c : C) :
  wait_total < deploy_wait_time self →
  _wait_for_apps_from self (S fuel) ctx_list vhost wait_total failed_apps c
  = (let failed := failed_of (status_at vhost c) ctx_list in
     let r :=
       if bool_decide (failed = [])
       then ret (Some failed) (after_status vhost c)
       else
         (time_sleep (poll_interval self) ;;;
          _wait_for_apps_from self fuel ctx_list vhost
            (wait_total + poll_interval self) (Some failed))
           (after_status vhost c) in
     (r.1.1, r.1.2, EvStatus "*" vhost (status_at vhost c) :: r.2)).
Proof.
  intros Hw. simpl. rewrite bool_decide_true by done.
  unfold bind at 1, c_webapp_status, status_at, after_status.
  destruct (webapp_status "*" vhost c) as [stats c1]. simpl.
  rewrite check_apps_eq. simpl.
  case_bool_decide; [done|].
  by destruct ((time_sleep (poll_interval self) ;;; _) c1) as [[??]?].
Qed.

(** With a positive interval the loop ends once the fuel covers the time
    that is left. *)
Lemma wait_for_apps_from_halts (fuel : nat) :
  0 < poll_interval self →
  ∀ (wait_total : Z) (failed_apps : option (list string)) (c : C),
    deploy_wait_time self - wait_total ≤ Z.of_nat fuel →
    ∃ r c' t,
      _wait_for_apps_from self fuel ctx_list vhost wait_total failed_apps c
      = (Ret r, c', t).
Proof.
  intros Hpoll. induction fuel as [|fuel IH]; intros wait_total fa c Hfuel.
  - rewrite wait_for_apps_from_exit by lia. eauto.
  - destruct (decide (wait_total < deploy_wait_time self)) as [Hw|Hw];
      [|rewrite wait_for_apps_from_exit by done; eauto].
    rewrite wait_for_apps_from_step by done. simpl.
    case_bool_decide; [unfold ret; simpl; eauto|].
    rewrite (bind_ret_l _ _ _ _ _ _
               (time_sleep_run (poll_interval self) (after_status vhost c)
                  ltac:(lia))).
    edestruct (IH (wait_total + poll_interval self)) as (r & c' & t & ->);
      [lia|]. simpl. eauto.
Qed.

(** What the loop returns: the value it was entered with when its body
    never ran, the failed contexts of its last status read otherwise. *)
Lemma wait_for_apps_from_inv (fuel : nat) :
  ∀ (wait_total : Z) (failed_apps r : option (list string)) (c c' : C)
    (t : list event),
    _wait_for_apps_from self fuel ctx_list vhost wait_total failed_apps c
    = (Ret r, c', t) →
    (¬ wait_total < deploy_wait_time self ∧ t = [] ∧ r = failed_apps)
    ∨ (∃ stats, last (status_reads t) = Some stats
                ∧ r = Some (failed_of stats ctx_list)).
Proof.
  induction fuel as [|fuel IH]; intros wait_total fa r c c' t Hrun.
  - simpl in Hrun. case_bool_decide; [done|].
    injection Hrun as <- <- <-. by left.
  - destruct (decide (wait_total < deploy_wait_time self)) as [Hw|Hw].
    + right. rewrite wait_for_apps_from_step in Hrun by done. simpl in Hrun.
      case_bool_decide.
      * injection Hrun as <- <- <-. eauto.
      * unfold bind, time_sleep in Hrun.
        case_bool_decide; [done|].
        destruct (_wait_for_apps_from _ _ _ _ _ _ _) as [[o c2] t2] eqn:Hrec.
        simpl in Hrun. injection Hrun as -> -> <-.
        apply IH in Hrec as [(_ & -> & ->)|(stats & Hlast & ->)]; [eauto|].
        exists stats. split; [|done].
        change (EvStatus "*" vhost (status_at vhost c) :: EvSleep (poll_interval self) :: t2)
          with ([EvStatus "*" vhost (status_at vhost c); EvSleep (poll_interval self)] ++ t2).
        rewrite status_reads_app. simpl.
        destruct (status_reads t2) as [|s l] eqn:Ht2; [done|].
        by rewrite last_cons, Hlast.
    + rewrite wait_for_apps_from_exit in Hrun by done.
      injection Hrun as <- <- <-. by left.
Qed.
(** The loop itself raises nothing but the [IOError] of a sleep. *)
Lemma wait_for_apps_from_raise (fuel : nat) :
  ∀ (wait_total : Z) (failed_apps : option (list string)) (c c' : C)
    (e : exn) (t : list event),
    _wait_for_apps_from self fuel ctx_list vhost wait_total failed_apps c
    = (Raise e, c', t) →
    e = IOError.
Proof.
  induction fuel as [|fuel IH]; intros wait_total fa c c' e t Hrun.
  - simpl in Hrun. by case_bool_decide.
  - destruct (decide (wait_total < deploy_wait_time self)) as [Hw|Hw];
      [|by rewrite wait_for_apps_from_exit in Hrun by done].
    rewrite wait_for_apps_from_step in Hrun by done. simpl in Hrun.
    case_bool_decide; [done|].
    unfold bind, time_sleep in Hrun.
    case_bool_decide; [by injection Hrun as <- _ _|].
    destruct (_wait_for_apps_from _ _ _ _ _ _ _) as [[o c2] t2] eqn:Hrec.
    simpl in Hrun. injection Hrun as -> -> <-. by eapply IH.
Qed.
End Convergence.

Section WaitForApps.
Context {C : Type} `{!TomcatCluster C}.
Variable self : Config.

Lemma wait_for_apps_run (fuel : nat) (new_apps : list (string * webapp))
    (vhost : string) (c : C) :
  _wait_for_apps self fuel new_apps vhost c
  = (let r := _wait_for_apps_from self fuel (ctx_names new_apps) vhost 0 None c in
     (match r.1.1 with
      | Ret (Some failed_apps) => Ret failed_apps
      | Ret None => Raise (UnboundLocalError "failed_apps")
      | Raise e => Raise e
      | Diverge => Diverge
      end, r.1.2, r.2)).
Proof.
  unfold _wait_for_apps, bind.
  destruct (_wait_for_apps_from _ _ _ _ _ _ _) as [[[[f|]|e|] c'] t];
    simpl; by rewrite ?app_nil_r.
Qed.

(** When the loop is entered and the first status read shows every
    context started, [_wait_for_apps] returns at once. *)
Lemma wait_for_apps_started_at_once (fuel : nat)
    (new_apps : list (string * webapp)) (vhost : string) (c : C) :
  0 < deploy_wait_time self →
  all_started (status_at vhost c) (ctx_names new_apps) →
  _wait_for_apps self (S fuel) new_apps vhost c
  = (Ret [], after_status vhost c, [EvStatus "*" vhost (status_at vhost c)]).
Proof.
  intros Hw Hall. rewrite wait_for_apps_run.
  rewrite wait_for_apps_from_step by done. simpl.
  rewrite (all_started_failed_of _ _ Hall). by rewrite bool_decide_true.
Qed.

(** The first status read of [_wait_for_apps], when there is one, is the
    status of the state it is called in, and then the loop was entered. *)
Lemma wait_for_apps_first_read (fuel : nat)
    (new_apps : list (string * webapp)) (vhost : string) (c : C)
    (stats : gmap string AppStatus) :
  head (status_reads (trace_of (_wait_for_apps self fuel new_apps vhost c)))
  = Some stats →
  stats = status_at vhost c ∧ 0 < deploy_wait_time self ∧ fuel ≠ 0%nat.
Proof.
  rewrite wait_for_apps_run. unfold trace_of. simpl.
  destruct (decide (0 < deploy_wait_time self)) as [Hw|Hw].
  - destruct fuel as [|fuel].
    + simpl. by rewrite bool_decide_true by done.
    + rewrite wait_for_apps_from_step by done. simpl.
      intros [= <-]. done.
  - by rewrite wait_for_apps_from_exit by done.
Qed.
End WaitForApps.

(** C6.  When the first status read of [_wait_for_apps] shows every
    context of the units coherent and "STARTED", it returns the empty list
    at once: its trace is that one status read, with no sleep. *)
Theorem wait_for_apps_all_started_on_first_read {C} `{!TomcatCluster C}
    (self : Config) (fuel : nat) (new_apps : list (string * webapp))
    (vhost : string) (c : C) (stats : gmap string AppStatus) :
  head (status_reads (trace_of (_wait_for_apps self fuel new_apps vhost c)))
  = Some stats →
  all_started stats (ctx_names new_apps) →
  _wait_for_apps self fuel new_apps vhost c
  = (Ret [], after_status vhost c, [EvStatus "*" vhost stats])
  ∧ status_reads (trace_of (_wait_for_apps self fuel new_apps vhost c))
    = [stats]
  ∧ sleeps (trace_of (_wait_for_apps self fuel new_apps vhost c)) = [].
Proof.
  intros Hread Hall.
  apply wait_for_apps_first_read in Hread as (-> & Hw & Hfuel).
  destruct fuel as [|fuel]; [done|].
  by rewrite (wait_for_apps_started_at_once self fuel new_apps vhost c Hw Hall).
Qed.

(** C10, as the code has it.  With [deploy_wait_time] and [poll_interval]
    both positive, [_wait_for_apps] returns, given fuel for
    [deploy_wait_time] iterations: the list it returns is the failed
    contexts of its last status read, all of them contexts of the units.
    With [deploy_wait_time] positive it never ends with [failed_apps]
    unbound; with [deploy_wait_time <= 0] the body never runs and
    reading [failed_apps] raises [UnboundLocalError]. *)
Theorem wait_for_apps_result_defined {C} `{!TomcatCluster C}
    (self : Config) (new_apps : list (string * webapp)) (vhost : string)
    (c : C) :
  (0 < deploy_wait_time self → 0 < poll_interval self →
   ∀ fuel, (Z.to_nat (deploy_wait_time self) ≤ fuel)%nat →
     ∃ failed c' t stats,
       _wait_for_apps self fuel new_apps vhost c = (Ret failed, c', t)
       ∧ last (status_reads t) = Some stats
       ∧ failed = (check_apps stats (ctx_names new_apps)).2
       ∧ failed ⊆ ctx_names new_apps)
  ∧ (0 < deploy_wait_time self →
     ∀ fuel,
       outcome_of (_wait_for_apps self fuel new_apps vhost c)
       ≠ Raise (UnboundLocalError "failed_apps"))
  ∧ (deploy_wait_time self ≤ 0 →
     ∀ fuel,
       _wait_for_apps self fuel new_apps vhost c
       = (Raise (UnboundLocalError "failed_apps"), c, [])).
Proof.
  split; [|split].
  - intros Hw Hpoll fuel Hfuel.
    destruct (wait_for_apps_from_halts self (ctx_names new_apps) vhost fuel
                Hpoll 0 None c) as (r & c' & t & Hrun); [lia|].
    pose proof (wait_for_apps_from_inv _ _ _ _ _ _ _ _ _ _ Hrun)
      as [(Hnw & _)|(stats & Hlast & ->)]; [lia|].
    exists (failed_of stats (ctx_names new_apps)), c', t, stats.
    rewrite wait_for_apps_run, Hrun, check_apps_eq. simpl.
    repeat split; try done. apply failed_of_subseteq.
  - intros Hw fuel. rewrite wait_for_apps_run. unfold outcome_of. simpl.
    destruct (_wait_for_apps_from _ _ _ _ _ _ _) as [[[[f|]|e|] c'] t] eqn:Hrun;
      simpl; try done.
    + apply wait_for_apps_from_inv in Hrun
        as [(Hnw & _)|(stats & _ & [=])]. lia.
    + intros [= ->]. by apply wait_for_apps_from_raise in Hrun.
  - intros Hw fuel. rewrite wait_for_apps_run.
    by rewrite wait_for_apps_from_exit by lia.
Qed.

(** ** Rollback *)

Section Rollback.
Context {C : Type} `{!TomcatCluster C}.
Variable self : Config.

Lemma no_undeploy_get_memory (percentage : Z) (hosts : option (list string))
    (c : C) :
  behaves false not_undeploy (_get_memory self percentage hosts c).
Proof. rewrite get_memory_run. split; [done|]. by repeat constructor. Qed.

Lemma no_undeploy_wait_for_free_mem_from (fuel : nat) :
  ∀ (hosts : list string) (percentage wait_total : Z) (c : C),
    behaves false not_undeploy
      (_wait_for_free_mem_from self fuel hosts percentage wait_total c).
Proof.
  induction fuel as [|fuel IH]; intros hosts percentage wait_total c; simpl.
  - by split.
  - apply behaves_bind; [apply no_undeploy_get_memory|].
    intros mem c1. case_bool_decide; [|apply behaves_ret].
    case_bool_decide; [apply behaves_ret|].
    apply behaves_bind; [apply behaves_time_sleep|]. intros _ c2. apply IH.
Qed.

Lemma no_undeploy_check_memory (fuel : nat) (c : C) :
  behaves false not_undeploy (_check_memory self fuel c).
Proof.
  unfold _check_memory.
  apply behaves_bind; [apply no_undeploy_get_memory|].
  intros mem c1. case_bool_decide; [apply behaves_ret|].
  destruct (auto_gc self); [|apply behaves_raise].
  apply behaves_bind; [by apply behaves_run_command|].
  intros _ c2.
  apply behaves_bind; [apply no_undeploy_wait_for_free_mem_from|].
  intros [] c3; [apply behaves_ret|apply behaves_raise].
Qed.

Lemma no_undeploy_wait_for_apps_from (fuel : nat) :
  ∀ (ctx_list : list string) (vhost : string) (wait_total : Z)
    (failed_apps : option (list string)) (c : C),
    behaves false not_undeploy
      (_wait_for_apps_from self fuel ctx_list vhost wait_total failed_apps c).
Proof.
  induction fuel as [|fuel IH]; intros ctx_list vhost wait_total fa c; simpl.
  - case_bool_decide; by split.
  - case_bool_decide; [|apply behaves_ret].
    apply behaves_bind; [apply behaves_webapp_status|].
    intros stats c1. destruct (check_apps stats ctx_list).1;
      [apply behaves_ret|].
    apply behaves_bind; [apply behaves_time_sleep|]. intros _ c2. apply IH.
Qed.

Lemma no_undeploy_wait_for_apps (fuel : nat)
    (new_apps : list (string * webapp)) (vhost : string) (c : C) :
  behaves false not_undeploy (_wait_for_apps self fuel new_apps vhost c).
Proof.
  unfold _wait_for_apps.
  apply behaves_bind; [apply no_undeploy_wait_for_apps_from|].
  intros [f|] c1; [apply behaves_ret|apply behaves_raise].
Qed.

Lemma no_undeploy_before_wait (fuel : nat)
    (new_apps : list (string * webapp)) (vhost : string) (c : C) :
  behaves false not_undeploy (before_wait self fuel new_apps vhost c).
Proof.
  unfold before_wait.
  apply behaves_bind; [by apply behaves_clean_old_apps|]. intros _ c1.
  apply behaves_bind.
  { destruct (check_memory self); [|apply behaves_ret].
    apply behaves_bind; [apply no_undeploy_check_memory|].
    intros; apply behaves_ret. }
  intros _ c2. unfold _deploy. apply behaves_for_collect.
  intros item c3. apply behaves_bind; [by apply behaves_run_command|].
  intros; apply behaves_ret.
Qed.

Lemma undeploys_none (t : list event) :
  Forall (event_ok not_undeploy) t → undeploys t = [].
Proof.
  unfold undeploys, commands. induction 1 as [|e t He Ht IH]; [done|].
  destruct e as [| cmd |]; simpl; try done.
  rewrite filter_cons, decide_False; [done|].
  simpl in He. unfold not_undeploy in He. by destruct (is_undeploy cmd).
Qed.

Lemma undeploys_app (t1 t2 : list event) :
  undeploys (t1 ++ t2) = undeploys t1 ++ undeploys t2.
Proof. unfold undeploys, commands. by rewrite omap_app, filter_app. Qed.

Lemma undeploys_cons_undeploy (ctx vhost : string) (t : list event) :
  undeploys (EvCommand (cmd_undeploy ctx vhost) :: t)
  = cmd_undeploy ctx vhost :: undeploys t.
Proof.
  unfold undeploys.
  change (commands (EvCommand (cmd_undeploy ctx vhost) :: t))
    with (cmd_undeploy ctx vhost :: commands t).
  by rewrite filter_cons, decide_True by done.
Qed.

Lemma undeploys_undeploy (l : list string) (vhost : string) :
  undeploys ((fun ctx => EvCommand (cmd_undeploy ctx vhost)) <$> l)
  = (fun ctx => cmd_undeploy ctx vhost) <$> l.
Proof.
  induction l as [|ctx l IH]; [done|].
  rewrite !fmap_cons, undeploys_cons_undeploy. by rewrite IH.
Qed.

Lemma undeploy_run (context_names : list string) (vhost : string) :
  ∀ (rv : gmap string (gmap string (list string))) (c : C),
    ∃ rv' c',
      for_collect context_names rv
        (fun ctx => r <- c_run_command (cmd_undeploy ctx vhost) ;; ret (ctx, r)) c
      = (Ret rv', c',
         (fun ctx => EvCommand (cmd_undeploy ctx vhost)) <$> context_names).
Proof.
  induction context_names as [|ctx l IH]; intros rv c; simpl.
  - by eexists _, _.
  - unfold bind at 1 2, c_run_command.
    destruct (run_command (cmd_undeploy ctx vhost) c) as [r c1]. simpl.
    edestruct IH as (rv' & c' & ->). by eexists _, _.
Qed.

Lemma deploy_run (fuel : nat) (new_apps : list (string * webapp))
    (vhost : string) (c : C) :
  deploy self fuel new_apps vhost c
  = (before_wait self fuel new_apps vhost ;;;
     failed <- _wait_for_apps self fuel new_apps vhost ;;
     if bool_decide (0 < length failed)%nat
     then
       (if undeploy_on_error self
        then undeploy (ctx_names new_apps) vhost ;;; ret tt
        else ret tt) ;;;
       raise (TomcatError (DeploymentFailed failed))
     else ret tt) c.
Proof.
  unfold deploy, before_wait. symmetry. apply bind_assoc3.
Qed.
End Rollback.

(** C7.  When [undeploy_on_error] is set and [_wait_for_apps] returns a
    list of failed contexts that is not empty, [deploy] issues one
    [undeploy] command for the context of every unit of the batch, failed
    or not, in order and after everything else, and no other [undeploy]
    command, then raises [DeploymentFailed] with the failed contexts; and
    every context of the batch that no status read of the wait shows is
    among the failed contexts. *)
Theorem deploy_rolls_back_every_context {C} `{!TomcatCluster C}
    (self : Config) (fuel : nat) (new_apps : list (string * webapp))
    (vhost : string) (c c1 c2 : C)
    (rv : gmap string (gmap string (list string)))
    (t1 t2 : list event) (failed : list string) :
  undeploy_on_error self = true →
  before_wait self fuel new_apps vhost c = (Ret rv, c1, t1) →
  _wait_for_apps self fuel new_apps vhost c1 = (Ret failed, c2, t2) →
  failed ≠ [] →
  (∃ c3 t,
     deploy self fuel new_apps vhost c
     = (Raise (TomcatError (DeploymentFailed failed)), c3, t)
     ∧ t = t1 ++ t2
           ++ ((fun ctx => EvCommand (cmd_undeploy ctx vhost))
                 <$> ctx_names new_apps)
     ∧ undeploys t
       = (fun ctx => cmd_undeploy ctx vhost) <$> ctx_names new_apps)
  ∧ (∀ ctx, ctx ∈ ctx_names new_apps →
       (∀ stats, stats ∈ status_reads t2 → stats !! ctx = None) →
       ctx ∈ failed).
Proof.
  intros Hroll Hbefore Hwait Hfailed. split.
  - destruct (undeploy_run (ctx_names new_apps) vhost ∅ c2)
      as (rv' & c3 & Hun).
    exists c3. eexists. split; [|split; [reflexivity|]].
    + rewrite deploy_run.
      rewrite (bind_ret_l _ _ _ _ _ _ Hbefore).
      rewrite (bind_ret_l _ _ _ _ _ _ Hwait).
      rewrite bool_decide_true by (destruct failed; [done|simpl; lia]).
      rewrite Hroll.
      assert (Hun' :
        (undeploy (ctx_names new_apps) vhost ;;; ret tt) c2
        = (Ret tt, c3,
           (fun ctx => EvCommand (cmd_undeploy ctx vhost))
             <$> ctx_names new_apps)).
      { unfold undeploy. rewrite (bind_ret_l _ _ _ _ _ _ Hun). simpl.
        by rewrite app_nil_r. }
      rewrite (bind_ret_l _ _ _ _ _ _ Hun'). simpl. by rewrite app_nil_r.
    + rewrite !undeploys_app, undeploys_undeploy.
      pose proof (no_undeploy_before_wait self fuel new_apps vhost c) as [_ Hb].
      pose proof (no_undeploy_wait_for_apps self fuel new_apps vhost c1) as [_ Hw].
      rewrite Hbefore in Hb. rewrite Hwait in Hw. simpl in Hb, Hw.
      by rewrite (undeploys_none _ Hb), (undeploys_none _ Hw).
  - intros ctx Hctx Habsent.
    rewrite wait_for_apps_run in Hwait. simpl in Hwait.
    destruct (_wait_for_apps_from _ _ _ _ _ _ _) as [[[[f|]|e|] c'] t] eqn:Hrun;
      simpl in Hwait; try done.
    injection Hwait as -> -> ->.
    apply wait_for_apps_from_inv in Hrun as [(_ & _ & [=])|(stats & Hlast & [= ->])].
    apply failed_of_absent; [done|].
    apply Habsent. by eapply last_Some_elem_of.
Qed.

(** ** The properties on the example clusters *)

(** C1 as stated fails where exactly one context serves the path: "v9"
    serves "/app" alone, the new "v10" is not the latest of the two, and
    [deploy] goes on to deploy it and returns. *)
Lemma deploy_older_than_single_version :
  (webapp_paths (status_at "localhost" one_version)).1 !! "/app" = Some ["v9"]
  ∧ latest "v10" ["v9"] = "v9"
  ∧ outcome_of (deploy default_config 1 app_v10 "localhost" one_version)
    = Ret tt
  ∧ commands (trace_of (deploy default_config 1 app_v10 "localhost" one_version))
    = [cmd_find_pools_over 50 None; cmd_deploy "app##10.war" "v10" "localhost"].
Proof. repeat split; vm_compute; reflexivity. Qed.

Lemma deploy_superseded_by_newer_version_witness :
  deploy default_config 0 app_v10 "localhost" two_versions
  = (Raise (TomcatError (SupersededByNewerVersion "v9" "/app" "v10")),
     after_status "localhost" two_versions,
     [EvStatus "*" "localhost" (status_at "localhost" two_versions)]).
Proof.
  apply (deploy_superseded_by_newer_version default_config 0 [] []
           "app##10.war" "v10" "/app" "10" "localhost" ["v9"; "v8"]
           two_versions (after_status "localhost" two_versions) []).
  - vm_compute. reflexivity.
  - vm_compute. eexists. reflexivity.
  - vm_compute. reflexivity.
  - simpl. lia.
  - vm_compute. discriminate.
  - reflexivity.
Defined.

Lemma deploy_partial_cluster_key_error_witness :
  deploy default_config 0 app_2 "localhost" partial_cluster
  = (Raise (KeyError "/app"), after_status "localhost" partial_cluster,
     [EvStatus "*" "localhost" (status_at "localhost" partial_cluster)]).
Proof.
  apply (deploy_partial_cluster_key_error default_config 0 [] []
           "app##2.war" "/app##2" "/app" "2" "localhost"
           partial_cluster (after_status "localhost" partial_cluster) []).
  - vm_compute. reflexivity.
  - vm_compute. eexists. reflexivity.
  - vm_compute. reflexivity.
  - reflexivity.
Defined.

(** C4 as stated fails: with the nodes short of memory at every check the
    failure comes after three sleeps, 15 seconds and not 10; and when the
    memory is back only at the check made after 15 seconds, the guard
    still returns [True]. *)
Lemma check_memory_gives_up_after_15 :
  outcome_of (_check_memory gc_10_5 4 low_memory)
  = Raise (TomcatError (InsufficientMemory ["node1"]))
  ∧ sleeps (trace_of (_check_memory gc_10_5 4 low_memory)) = [5; 5; 5]
  ∧ slept (trace_of (_check_memory gc_10_5 4 low_memory)) = 15
  ∧ slept (trace_of (_check_memory gc_10_5 4 low_memory)) ≠ 10
  ∧ outcome_of (_check_memory gc_10_5 4 late_recovery) = Ret true
  ∧ slept (trace_of (_check_memory gc_10_5 4 late_recovery)) = 15.
Proof. repeat split; vm_compute; (reflexivity || discriminate). Qed.

Lemma check_memory_gc_wait_10_5_witness :
  ∃ c' t,
    _check_memory gc_10_5 4 low_memory
    = (Raise (TomcatError (InsufficientMemory (short_hosts gc_10_5 low_memory))),
       c', t)
    ∧ sleeps t = [5; 5; 5] ∧ slept t = 15.
Proof.
  apply (check_memory_gc_wait_10_5 gc_10_5 4 low_memory).
  - reflexivity.
  - reflexivity.
  - reflexivity.
  - vm_compute. lia.
  - lia.
  - intros k Hk.
    destruct k as [|[|[|[|k]]]]; [vm_compute; lia..|lia].
Defined.

(** C5 as stated fails in a batch where a unit before the colliding one
    fails first: "/b" is already in the status, and [deploy] fails with
    the [PathCollision] of "/p". *)
Lemma deploy_collision_after_path_collision :
  ("b.war", ("/b", "/b", None)) ∈ apps_p_b
  ∧ status_at "localhost" serving !! "/b" = Some (started_app "/b")
  ∧ outcome_of (deploy default_config 1 apps_p_b "localhost" serving)
    = Raise (TomcatError (PathCollision "/p" ["/x"])).
Proof.
  split; [|split].
  - apply list_elem_of_further, list_elem_of_here.
  - vm_compute. reflexivity.
  - vm_compute. reflexivity.
Qed.

Lemma deploy_context_collision_witness :
  deploy default_config 1 apps_b_p "localhost" serving
  = (Raise (TomcatError (ContextCollision "/b" ["node1"])),
     after_status "localhost" serving,
     [EvStatus "*" "localhost" (status_at "localhost" serving)]).
Proof.
  destruct (deploy_context_collision default_config 1 apps_b_p
              "b.war" "/b" "/b" "localhost" None (started_app "/b") serving)
    as [_ Hreached].
  - apply list_elem_of_here.
  - vm_compute. reflexivity.
  - apply (Hreached [] [("p.war", ("/p", "/p", None))]); reflexivity.
Defined.

Lemma wait_for_apps_all_started_on_first_read_witness :
  _wait_for_apps default_config 1 app_a "localhost" started
  = (Ret [], after_status "localhost" started,
     [EvStatus "*" "localhost" (status_at "localhost" started)]).
Proof.
  apply (wait_for_apps_all_started_on_first_read default_config 1 app_a
           "localhost" started (status_at "localhost" started)).
  - vm_compute. reflexivity.
  - intros ctx Hctx. elem_cases Hctx.
    exists (started_app "/a"). split; [vm_compute; reflexivity|]. by split.
Defined.

Lemma deploy_rolls_back_every_context_witness :
  ∃ c3 t,
    deploy default_config 6 app_a "localhost" never_visible
    = (Raise (TomcatError (DeploymentFailed ["/a"])), c3, t)
    ∧ undeploys t = [cmd_undeploy "/a" "localhost"].
Proof.
  edestruct (deploy_rolls_back_every_context default_config 6 app_a
               "localhost" never_visible)
    as [(c3 & t & Hrun & _ & Hun) _].
  - reflexivity.
  - vm_compute. reflexivity.
  - vm_compute. reflexivity.
  - discriminate.
  - exists c3, t. split; [exact Hrun|exact Hun].
Defined.

Lemma get_memory_drops_noise_only_node_witness :
  ∃ mem c' t,
    _get_memory default_config 50 None noisy = (Ret mem, c', t)
    ∧ mem !! "node1" = None.
Proof.
  apply (get_memory_drops_noise_only_node default_config 50 None noisy "node1").
  intros pools Hpools. vm_compute in Hpools. injection Hpools as <-.
  intros x Hx. elem_cases Hx;
    repeat first [apply list_elem_of_here | apply list_elem_of_further].
Defined.

(** With a zero interval and a context that never shows up, the loop of
    [_wait_for_apps] never ends. *)
Lemma wait_for_apps_from_zero_interval (fuel : nat) :
  ∀ failed_apps : option (list string),
    (_wait_for_apps_from zero_interval fuel ["/a"] "localhost" 0 failed_apps
       never_visible).1.1 = Diverge.
Proof.
  induction fuel as [|fuel IH]; intros fa; [done|].
  rewrite wait_for_apps_from_step by done.
  change (failed_of (status_at "localhost" never_visible) ["/a"]) with ["/a"].
  change (after_status "localhost" never_visible) with never_visible.
  simpl. unfold bind, time_sleep. simpl.
  specialize (IH (Some ["/a"])).
  by destruct (_wait_for_apps_from _ _ _ _ _ _ _) as [[??]?]; simpl in *; subst.
Qed.

(** C10 as stated fails: [deploy_wait_time] is positive, [poll_interval]
    is zero, the context never shows up, and [_wait_for_apps] returns for
    no amount of fuel. *)
Lemma wait_for_apps_zero_interval_never_returns :
  0 < deploy_wait_time zero_interval
  ∧ ¬ ∃ fuel failed c' t,
        _wait_for_apps zero_interval fuel app_a "localhost" never_visible
        = (Ret failed, c', t).
Proof.
  split; [done|]. intros (fuel & failed & c' & t & Hrun).
  rewrite wait_for_apps_run in Hrun.
  pose proof (wait_for_apps_from_zero_interval fuel None) as Hdiv.
  change (ctx_names app_a) with ["/a"] in Hrun.
  simpl in Hrun. by rewrite Hdiv in Hrun.
Qed.

Lemma wait_for_apps_result_defined_witness :
  ∃ failed c' t stats,
    _wait_for_apps default_config 30 app_a "localhost" never_visible
    = (Ret failed, c', t)
    ∧ last (status_reads t) = Some stats
    ∧ failed = (check_apps stats (ctx_names app_a)).2
    ∧ failed ⊆ ctx_names app_a.
Proof.
  apply (proj1 (wait_for_apps_result_defined default_config app_a "localhost"
                  never_visible)).
  - done.
  - done.
  - vm_compute. lia.
Defined.

(** * Further properties of the deployer *)

(** ** Traces *)

Lemma commands_app (t1 t2 : list event) :
  commands (t1 ++ t2) = commands t1 ++ commands t2.
Proof. apply omap_app. Qed.

Lemma sleeps_app (t1 t2 : list event) :
  sleeps (t1 ++ t2) = sleeps t1 ++ sleeps t2.
Proof. apply omap_app. Qed.

Lemma slept_app (t1 t2 : list event) : slept (t1 ++ t2) = slept t1 + slept t2.
Proof.
  induction t1 as [|e t1 IH]; [done|].
  destruct e; simpl; rewrite IH; lia.
Qed.

Lemma commands_of_commands (l : list command) :
  commands (EvCommand <$> l) = l.
Proof.
  induction l as [|x l IH]; [done|]. rewrite fmap_cons.
  change (commands (EvCommand x :: (EvCommand <$> l)))
    with (x :: commands (EvCommand <$> l)).
  by rewrite IH.
Qed.

Lemma status_reads_of_commands (l : list command) :
  status_reads (EvCommand <$> l) = [].
Proof. induction l as [|x l IH]; [done|]. by rewrite fmap_cons. Qed.

Lemma sleeps_of_commands (l : list command) : sleeps (EvCommand <$> l) = [].
Proof. induction l as [|x l IH]; [done|]. by rewrite fmap_cons. Qed.

(** ** The loops of [_deploy] and [undeploy] *)

Section Collect.
Context {C : Type} `{!TomcatCluster C}.
Context {A : Type}.
Variable cmd : A → command.
Variable key : A → string.

Lemma after_commands_cons (x : command) (l : list command) (c : C) :
  after_commands (x :: l) c = after_commands l (run_command x c).2.
Proof. done. Qed.

Lemma after_commands_app (l1 l2 : list command) (c : C) :
  after_commands (l1 ++ l2) c = after_commands l2 (after_commands l1 c).
Proof. unfold after_commands. by rewrite foldl_app. Qed.

Lemma for_collect_step (x : A) (l : list A)
    (rv : gmap string (gmap string (list string))) (c : C) :
  for_collect (x :: l) rv
    (fun x => r <- c_run_command (cmd x) ;; ret (key x, r)) c
  = (let r := for_collect l (<[key x := (run_command (cmd x) c).1]> rv)
                (fun x => r <- c_run_command (cmd x) ;; ret (key x, r))
                (run_command (cmd x) c).2 in
     (r.1.1, r.1.2, EvCommand (cmd x) :: r.2)).
Proof.
  simpl. unfold bind at 1 2, c_run_command.
  destruct (run_command (cmd x) c) as [r c1]. simpl.
  by destruct (for_collect l _ _ c1) as [[??]?].
Qed.

(** One command for each element, in order; the dictionary returned has
    the answer of the last command of each key, and keeps the other keys
    it had. *)
Lemma for_collect_commands (l : list A) :
  ∀ (rv : gmap string (gmap string (list string))) (c : C),
    ∃ rv',
      for_collect l rv (fun x => r <- c_run_command (cmd x) ;; ret (key x, r)) c
      = (Ret rv', after_commands (cmd <$> l) c,
         (fun x => EvCommand (cmd x)) <$> l)
      ∧ (∀ k, k ∉ key <$> l → rv' !! k = rv !! k)
      ∧ (∀ pre x post, l = pre ++ x :: post → key x ∉ key <$> post →
           rv' !! key x
           = Some (run_command (cmd x) (after_commands (cmd <$> pre) c)).1)
      ∧ (∀ k, is_Some (rv' !! k) ↔ is_Some (rv !! k) ∨ k ∈ key <$> l).
Proof.
  induction l as [|y l IH]; intros rv c.
  - exists rv. split; [done|]. split; [done|]. split.
    + intros pre x post Heq. by destruct pre.
    + intros k. rewrite fmap_nil, elem_of_nil. tauto.
  - rewrite for_collect_step.
    destruct (IH (<[key y := (run_command (cmd y) c).1]> rv)
                (run_command (cmd y) c).2) as (rv' & -> & Hout & Hin & Hdom).
    exists rv'. split; [done|]. split; [|split].
    + intros k Hk. rewrite fmap_cons, not_elem_of_cons in Hk.
      destruct Hk as [Hne Hk]. rewrite (Hout k Hk).
      by rewrite lookup_insert_ne.
    + intros [|z pre] x post Heq Hlast; simpl in Heq; injection Heq as -> ->.
      * rewrite (Hout _ Hlast). by rewrite lookup_insert_eq.
      * by apply (Hin pre x post).
    + intros k. rewrite Hdom, fmap_cons, elem_of_cons.
      destruct (decide (key y = k)) as [->|Hne].
      * rewrite lookup_insert_eq. split; [auto|]. intros _. left. by eexists.
      * rewrite lookup_insert_ne by done. split; [tauto|].
        intros [?|[?|?]]; [tauto|congruence|tauto].
Qed.
End Collect.

(** X1.  [undeploy] never fails, whatever the state of the cluster and
    whatever the contexts: it issues exactly one [undeploy] command for
    each context of the list, in the order of the list, repeated contexts
    included, and nothing else; the dictionary it returns has exactly the
    contexts of the list as keys, each with the answer of the last command
    issued for it. *)
Theorem undeploy_one_command_per_context {C} `{!TomcatCluster C}
    (context_names : list string) (vhost : string) (c : C) :
  let cmd ctx := cmd_undeploy ctx vhost in
  ∃ rv,
    undeploy context_names vhost c
    = (Ret rv, after_commands (cmd <$> context_names) c,
       (fun ctx => EvCommand (cmd ctx)) <$> context_names)
    ∧ (∀ ctx, is_Some (rv !! ctx) ↔ ctx ∈ context_names)
    ∧ (∀ pre ctx post, context_names = pre ++ ctx :: post → ctx ∉ post →
         rv !! ctx
         = Some (run_command (cmd ctx) (after_commands (cmd <$> pre) c)).1).
Proof.
  intros cmd.
  destruct (for_collect_commands cmd id context_names ∅ c)
    as (rv & Hrun & _ & Hin & Hdom).
  exists rv. split; [exact Hrun|]. split.
  - intros ctx. rewrite Hdom, lookup_empty, list_fmap_id.
    split; [intros [[? [=]]|?]; done|auto].
  - intros pre ctx post Heq Hlast. apply (Hin pre ctx post Heq).
    by rewrite list_fmap_id.
Qed.

(** X2.  [_deploy] never fails: it issues exactly one [deploy] command for
    each item of [new_apps], in order, with the file name and the context
    of the item, and nothing else; the keys of the dictionary it returns
    are exactly the contexts of the items, so two files with the same
    context give two commands and one key, which holds the answer of the
    later command. *)
Theorem deploy_one_command_per_item {C} `{!TomcatCluster C}
    (new_apps : list (string * webapp)) (vhost : string) (c : C) :
  ∃ rv,
    _deploy new_apps vhost c
    = (Ret rv, after_commands (deploy_command vhost <$> new_apps) c,
       (fun item => EvCommand (deploy_command vhost item)) <$> new_apps)
    ∧ (∀ ctx, is_Some (rv !! ctx) ↔ ctx ∈ ctx_names new_apps)
    ∧ (∀ pre item post, new_apps = pre ++ item :: post →
         item.2.1.1 ∉ ctx_names post →
         rv !! item.2.1.1
         = Some (run_command (deploy_command vhost item)
                   (after_commands (deploy_command vhost <$> pre) c)).1).
Proof.
  destruct (for_collect_commands (deploy_command vhost)
              (fun item : string * webapp => item.2.1.1) new_apps ∅ c)
    as (rv & Hrun & _ & Hin & Hdom).
  assert (Hnames : ∀ l : list (string * webapp),
            ctx_names l = (fun item : string * webapp => item.2.1.1) <$> l).
  { intros l. unfold ctx_names. by rewrite <- list_fmap_compose. }
  exists rv. split; [exact Hrun|]. split.
  - intros ctx. rewrite Hdom, lookup_empty, Hnames.
    split; [intros [[? [=]]|?]; done|auto].
  - intros pre item post Heq Hlast. apply (Hin pre item post Heq).
    by rewrite <- Hnames.
Qed.

(** ** The conflict check: unversioned units and compatible batches *)

Section Unversioned.
Context {C : Type} `{!TomcatCluster C}.
Variable self : Config.

Lemma clean_body_path_collision (vhost ctx path : string)
    (served : list string) (c c1 : C) :
  status_at vhost c !! ctx = None →
  is_Some ((webapp_paths (status_at vhost c)).2 !! path) →
  (webapp_paths (status_at vhost c)).1 !! path = Some served →
  clean_body self vhost c (ctx, path, None) c1
  = (Raise (TomcatError (PathCollision path served)), c1, []).
Proof.
  intros Hctx [nodes Hall] Hserved.
  unfold clean_body, _clean_old_app, bind. rewrite Hctx. simpl.
  rewrite Hall. unfold getitem. by rewrite Hserved.
Qed.

Lemma clean_body_unversioned_partial (vhost ctx path : string) (c c1 : C) :
  status_at vhost c !! ctx = None →
  is_Some ((webapp_paths (status_at vhost c)).2 !! path) →
  (webapp_paths (status_at vhost c)).1 !! path = None →
  clean_body self vhost c (ctx, path, None) c1
  = (Raise (KeyError path), c1, []).
Proof.
  intros Hctx [nodes Hall] Hserved.
  unfold clean_body, _clean_old_app, bind. rewrite Hctx. simpl.
  rewrite Hall. unfold getitem. by rewrite Hserved.
Qed.

(** A unit that meets nothing it could conflict with passes the check
    and leaves no trace: its context is new, and its path is either on no
    node or, for a versioned unit, served by at most one context. *)
Lemma clean_body_compatible (vhost ctx path : string) (ver : option string)
    (c c1 : C) :
  status_at vhost c !! ctx = None →
  (webapp_paths (status_at vhost c)).2 !! path = None
  ∨ (is_Some ver
     ∧ ∃ served, (webapp_paths (status_at vhost c)).1 !! path = Some served
                 ∧ (length served ≤ 1)%nat) →
  clean_body self vhost c (ctx, path, ver) c1 = (Ret tt, c1, []).
Proof.
  intros Hctx Hpath.
  unfold clean_body, _clean_old_app, bind. rewrite Hctx. simpl.
  destruct Hpath as [Hnone|([v ->] & served & Hserved & Hlen)].
  - by rewrite Hnone.
  - rewrite Hserved.
    destruct ((webapp_paths (status_at vhost c)).2 !! path) as [nodes|];
      [|done].
    by rewrite bool_decide_false by lia.
Qed.

Lemma for_each_silent {A} (l : list A) (body : A → M C unit) (c : C) :
  (∀ x, x ∈ l → body x c = (Ret tt, c, [])) →
  for_each l body c = (Ret tt, c, []).
Proof.
  induction l as [|x l IH]; intros Hall; simpl; [done|].
  unfold bind. rewrite (Hall x) by apply list_elem_of_here.
  rewrite IH; [done|]. intros y Hy. apply Hall. by apply list_elem_of_further.
Qed.
End Unversioned.

(** X3.  An unversioned unit whose context is new and whose path is
    served in the cluster (the path is in both dictionaries of
    [_get_webapps]) makes [deploy] fail with [PathCollision] when the loop
    of [_clean_old_apps] reaches it; no command has been issued for it,
    and the contexts the error names are exactly the contexts of the
    status whose cluster-wide path is that path, at least one. *)
Theorem deploy_path_collision {C} `{!TomcatCluster C}
    (self : Config) (fuel : nat) (pre post : list (string * webapp))
    (fn ctx path vhost : string) (served : list string) (c c1 : C)
    (t1 : list event) :
  status_at vhost c !! ctx = None →
  is_Some ((webapp_paths (status_at vhost c)).2 !! path) →
  (webapp_paths (status_at vhost c)).1 !! path = Some served →
  for_each pre.*2 (clean_body self vhost c) (after_status vhost c)
  = (Ret tt, c1, t1) →
  deploy self fuel (pre ++ (fn, (ctx, path, None)) :: post) vhost c
  = (Raise (TomcatError (PathCollision path served)), c1,
     EvStatus "*" vhost (status_at vhost c) :: t1)
  ∧ served ≠ []
  ∧ ∀ a, a ∈ served ↔ ∃ d, status_at vhost c !! a = Some d ∧ st_path d = path.
Proof.
  intros Hctx Hall Hserved Hpre. split; [|split].
  - etrans;
      [exact (deploy_fails_at_unit self fuel pre post fn _ vhost c c1 c1 _ t1 []
                Hpre (clean_body_path_collision self _ _ _ _ _ _
                        Hctx Hall Hserved))|].
    by rewrite app_nil_r.
  - intros ->. revert Hserved. rewrite webapp_paths_fst.
    by apply paths_of_nonempty.
  - intros a. rewrite <- elem_of_webapp_paths. by rewrite Hserved.
Qed.

(** X4.  An unversioned unit whose context is new and whose path some
    node reports while no application has it as its cluster-wide path
    makes [deploy] end with a [KeyError]: the message of the
    [PathCollision] reads [paths[path]], and the path is no key of
    [paths]. *)
Theorem deploy_unversioned_partial_key_error {C} `{!TomcatCluster C}
    (self : Config) (fuel : nat) (pre post : list (string * webapp))
    (fn ctx path vhost : string) (c c1 : C) (t1 : list event) :
  status_at vhost c !! ctx = None →
  is_Some ((webapp_paths (status_at vhost c)).2 !! path) →
  (webapp_paths (status_at vhost c)).1 !! path = None →
  for_each pre.*2 (clean_body self vhost c) (after_status vhost c)
  = (Ret tt, c1, t1) →
  deploy self fuel (pre ++ (fn, (ctx, path, None)) :: post) vhost c
  = (Raise (KeyError path), c1, EvStatus "*" vhost (status_at vhost c) :: t1).
Proof.
  intros Hctx Hall Hserved Hpre.
  etrans;
    [exact (deploy_fails_at_unit self fuel pre post fn _ vhost c c1 c1 _ t1 []
              Hpre (clean_body_unversioned_partial self _ _ _ _ _
                      Hctx Hall Hserved))|].
  by rewrite app_nil_r.
Qed.

(** X5.  When every unit of the batch has a new context and a path that
    is on no node or, for a versioned unit, is served by at most one
    context, [_clean_old_apps] returns after its one status read: it
    issues no command and compares no versions. *)
Theorem clean_old_apps_compatible_batch {C} `{!TomcatCluster C}
    (self : Config) (new_apps : list (string * webapp)) (vhost : string)
    (c : C) :
  (∀ fn ctx path ver, (fn, (ctx, path, ver)) ∈ new_apps →
     status_at vhost c !! ctx = None
     ∧ ((webapp_paths (status_at vhost c)).2 !! path = None
        ∨ (is_Some ver
           ∧ ∃ served,
               (webapp_paths (status_at vhost c)).1 !! path = Some served
               ∧ (length served ≤ 1)%nat))) →
  _clean_old_apps self new_apps vhost c
  = (Ret tt, after_status vhost c, [EvStatus "*" vhost (status_at vhost c)]).
Proof.
  intros Hall. rewrite clean_old_apps_run. simpl.
  fold (status_at vhost c) (after_status vhost c).
  fold (clean_body self vhost c).
  rewrite for_each_silent; [done|].
  intros [[ctx path] ver] Hin.
  apply list_elem_of_fmap in Hin as ([fn app] & Heq & Hin).
  simpl in Heq. subst app.
  destruct (Hall fn ctx path ver Hin) as [Hctx Hpath].
  by apply clean_body_compatible.
Qed.

(** ** Retiring the old versions *)

Section Retire.
Context {C : Type} `{!TomcatCluster C}.
Variable self : Config.

Lemma expire_sessions_run (apps : list string) (vhost : string) :
  ∀ c : C,
    for_each apps
      (fun app => c_run_command (cmd_expire_sessions app vhost) ;;; ret tt) c
    = (Ret tt,
       after_commands ((fun app => cmd_expire_sessions app vhost) <$> apps) c,
       EvCommand <$> ((fun app => cmd_expire_sessions app vhost) <$> apps)).
Proof.
  induction apps as [|app apps IH]; intros c; [done|].
  rewrite !fmap_cons, after_commands_cons. cbn [for_each].
  unfold bind at 1 2, c_run_command.
  destruct (run_command (cmd_expire_sessions app vhost) c) as [r c1].
  simpl. by rewrite IH.
Qed.

Lemma run_command_run (cmd : command) (c : C) :
  c_run_command cmd c
  = (Ret (run_command cmd c).1, (run_command cmd c).2, [EvCommand cmd]).
Proof. unfold c_run_command. by destruct (run_command cmd c). Qed.

(** The end of [_undeploy_old_versions]: the status read and the check
    of [paths[path]]. *)
Lemma versions_remaining_run (path vhost : string) (c : C) :
  (r <- _get_webapps vhost ;;
   served <- getitem r.1.2 path ;;
   if bool_decide (1 < length served)%nat
   then raise (TomcatError (AmbiguousVersionsRemain path served))
   else ret tt) c
  = (match (webapp_paths (status_at vhost c)).1 !! path with
     | Some served =>
         if bool_decide (1 < length served)%nat
         then Raise (TomcatError (AmbiguousVersionsRemain path served))
         else Ret tt
     | None => Raise (KeyError path)
     end,
     after_status vhost c, [EvStatus "*" vhost (status_at vhost c)]).
Proof.
  unfold bind at 1. rewrite get_webapps_run. simpl.
  fold (status_at vhost c) (after_status vhost c).
  unfold bind, getitem.
  destruct ((webapp_paths (status_at vhost c)).1 !! path) as [served|];
    simpl; [|done].
  by case_bool_decide.
Qed.

Lemma undeploy_old_versions_run (path : string) (apps : list string)
    (vhost : string) (c : C) :
  let cmds := retire_commands self apps vhost in
  let c1 := after_commands cmds c in
  _undeploy_old_versions self path apps vhost c
  = (match (webapp_paths (status_at vhost c1)).1 !! path with
     | Some served =>
         if bool_decide (1 < length served)%nat
         then Raise (TomcatError (AmbiguousVersionsRemain path served))
         else Ret tt
     | None => Raise (KeyError path)
     end,
     after_status vhost c1,
     (EvCommand <$> cmds) ++ [EvStatus "*" vhost (status_at vhost c1)]).
Proof.
  simpl. unfold _undeploy_old_versions, retire_commands.
  set (expire := if kill_sessions self
                 then (fun app => cmd_expire_sessions app vhost) <$> apps
                 else []).
  assert (Hexpire :
    (if kill_sessions self
     then for_each apps
            (fun app => c_run_command (cmd_expire_sessions app vhost) ;;; ret tt)
     else ret tt) c
    = (Ret tt, after_commands expire c, EvCommand <$> expire)).
  { unfold expire. destruct (kill_sessions self);
      [apply expire_sessions_run|done]. }
  rewrite (bind_ret_l _ _ _ _ _ _ Hexpire).
  rewrite (bind_ret_l _ _ _ _ _ _ (run_command_run _ _)).
  rewrite versions_remaining_run.
  rewrite after_commands_app, fmap_app. simpl.
  by rewrite <- app_assoc.
Qed.

(** [sorted(l)[:-1]] and [sorted(l)[-1]] make up [sorted(l)]. *)
Lemma sorted_but_last (l : list string) :
  l ≠ [] → sorted l = but_last (sorted l) ++ [last_item (sorted l)].
Proof.
  intros Hl. apply app_removelast_last.
  intros Hnil. apply (f_equal length) in Hnil.
  rewrite length_sorted in Hnil. by destruct l.
Qed.

Lemma but_last_sorted_elem (l : list string) (x : string) :
  x ∈ but_last (sorted l) → x ∈ l ∧ str_le x (last_item (sorted l)).
Proof.
  intros Hx. destruct l as [|y l]; [by apply elem_of_nil in Hx|].
  assert (Hin : x ∈ sorted (y :: l)).
  { rewrite (sorted_but_last (y :: l)) by done.
    apply elem_of_app. by left. }
  split; [by apply elem_of_sorted|].
  apply last_item_greatest; [apply sorted_StronglySorted|done].
Qed.

Lemma length_but_last_sorted (l : list string) :
  length (but_last (sorted l)) = pred (length l).
Proof.
  unfold but_last. rewrite removelast_firstn_len, length_take, length_sorted.
  lia.
Qed.

Lemma clean_body_retires (vhost ctx path v : string)
    (served : list string) (c c1 : C) :
  status_at vhost c !! ctx = None →
  is_Some ((webapp_paths (status_at vhost c)).2 !! path) →
  (webapp_paths (status_at vhost c)).1 !! path = Some served →
  (1 < length served)%nat →
  ctx = latest ctx served →
  clean_body self vhost c (ctx, path, Some v) c1
  = _undeploy_old_versions self path (but_last (sorted served)) vhost c1.
Proof.
  intros Hctx [nodes Hall] Hserved Hlen Hnew.
  unfold clean_body, _clean_old_app. rewrite Hctx.
  unfold bind at 1. simpl ret.
  rewrite Hall, Hserved.
  rewrite bool_decide_true by done. rewrite bool_decide_false by tauto.
  unfold ret at 1.
  by destruct (_undeploy_old_versions _ _ _ _ _) as [[??]?].
Qed.
End Retire.

(** X6.  [_undeploy_old_versions] issues the [undeploy_old_versions]
    command exactly once, as its last command, and before it one
    [expire_sessions] command for each of the applications it is given, in
    order, when [kill_sessions] is set and none when it is not; it then
    reads the status once and never sleeps.  It returns exactly when that
    read shows the path served by one context; when it shows more than one
    it fails with [AmbiguousVersionsRemain] naming them, and when it shows
    the path served by none, reading [paths[path]] raises [KeyError]. *)
Theorem undeploy_old_versions_outcome {C} `{!TomcatCluster C}
    (self : Config) (path : string) (apps : list string) (vhost : string)
    (c : C) :
  let r := _undeploy_old_versions self path apps vhost c in
  let c1 := after_commands (retire_commands self apps vhost) c in
  let paths := (webapp_paths (status_at vhost c1)).1 in
  commands (trace_of r)
  = (if kill_sessions self
     then (fun app => cmd_expire_sessions app vhost) <$> apps
     else [])
    ++ [cmd_undeploy_old_versions vhost]
  ∧ status_reads (trace_of r) = [status_at vhost c1]
  ∧ sleeps (trace_of r) = []
  ∧ (outcome_of r = Ret tt
     ↔ ∃ served, paths !! path = Some served ∧ length served = 1%nat)
  ∧ (∀ served, paths !! path = Some served → (1 < length served)%nat →
       outcome_of r
       = Raise (TomcatError (AmbiguousVersionsRemain path served)))
  ∧ (paths !! path = None → outcome_of r = Raise (KeyError path)).
Proof.
  intros r c1 paths. unfold r. rewrite undeploy_old_versions_run.
  fold c1. fold paths. unfold trace_of, outcome_of. simpl.
  rewrite commands_app, status_reads_app, sleeps_app.
  rewrite commands_of_commands, status_reads_of_commands, sleeps_of_commands.
  split; [apply app_nil_r|]. split; [done|]. split; [done|].
  assert (Hne : paths !! path ≠ Some []).
  { unfold paths. rewrite webapp_paths_fst. by apply paths_of_nonempty. }
  destruct (paths !! path) as [served|]; (split; [|split]).
  - case_bool_decide as Hlen.
    + split; [done|]. intros (served' & [= <-] & Hone). lia.
    + split; [|done]. intros _. exists served. split; [done|].
      destruct served as [|x [|y served]]; simpl in *; [done|done|lia].
  - intros served' [= <-] Hlen. by rewrite bool_decide_true.
  - done.
  - split; [done|]. by intros (served' & [=] & _).
  - by intros served' [=].
  - done.
Qed.

(** X7.  A versioned unit whose context is new and is the latest among
    itself and the two or more contexts serving its path makes the
    conflict check run [_undeploy_old_versions] on [sorted(paths[path])]
    without its last element: every existing context but the greatest one
    is handed over, each of them below the greatest existing context and
    below the new one.  When the status read after the retirement still
    shows more than one context on the path, [deploy] fails with
    [AmbiguousVersionsRemain]; the commands of the retirement are the last
    it has issued, and no [deploy] command is among them. *)
Theorem deploy_retires_old_versions {C} `{!TomcatCluster C}
    (self : Config) (fuel : nat) (pre post : list (string * webapp))
    (fn ctx path v vhost : string) (served : list string) (c c1 : C)
    (t1 : list event) :
  status_at vhost c !! ctx = None →
  is_Some ((webapp_paths (status_at vhost c)).2 !! path) →
  (webapp_paths (status_at vhost c)).1 !! path = Some served →
  (1 < length served)%nat →
  ctx = latest ctx served →
  for_each pre.*2 (clean_body self vhost c) (after_status vhost c)
  = (Ret tt, c1, t1) →
  let oldapps := but_last (sorted served) in
  let cmds := retire_commands self oldapps vhost in
  let c2 := after_commands cmds c1 in
  sorted served = oldapps ++ [last_item (sorted served)]
  ∧ length oldapps = pred (length served)
  ∧ (∀ x, x ∈ oldapps →
       x ∈ served ∧ str_le x (last_item (sorted served)) ∧ str_le x ctx)
  ∧ clean_body self vhost c (ctx, path, Some v) c1
    = _undeploy_old_versions self path oldapps vhost c1
  ∧ (∀ remaining,
       (webapp_paths (status_at vhost c2)).1 !! path = Some remaining →
       (1 < length remaining)%nat →
       deploy self fuel (pre ++ (fn, (ctx, path, Some v)) :: post) vhost c
       = (Raise (TomcatError (AmbiguousVersionsRemain path remaining)),
          after_status vhost c2,
          EvStatus "*" vhost (status_at vhost c) :: t1
            ++ (EvCommand <$> cmds)
            ++ [EvStatus "*" vhost (status_at vhost c2)])
       ∧ Forall (fun cmd => is_deploy cmd = false) cmds).
Proof.
  intros Hctx Hall Hserved Hlen Hnew Hpre oldapps cmds c2.
  assert (Hbody := clean_body_retires self vhost ctx path v served c c1
                     Hctx Hall Hserved Hlen Hnew).
  split; [|split; [|split; [|split]]].
  - apply sorted_but_last. intros ->. simpl in Hlen. lia.
  - apply length_but_last_sorted.
  - intros x Hx. destruct (but_last_sorted_elem served x Hx) as [Hin Hle].
    split; [done|]. split; [done|].
    rewrite Hnew. apply latest_greatest. by apply list_elem_of_further.
  - exact Hbody.
  - intros remaining Hrem Hamb. split.
    + etrans;
        [apply (deploy_fails_at_unit self fuel pre post fn _ vhost c c1
                  (after_status vhost c2)
                  (TomcatError (AmbiguousVersionsRemain path remaining)) t1
                  ((EvCommand <$> cmds)
                     ++ [EvStatus "*" vhost (status_at vhost c2)]) Hpre)|done].
      rewrite Hbody, undeploy_old_versions_run.
      fold oldapps. fold cmds. fold c2. rewrite Hrem.
      by rewrite bool_decide_true.
    + unfold cmds, retire_commands. apply Forall_app. split.
      * destruct (kill_sessions self); [|constructor].
        apply Forall_fmap, Forall_forall. done.
      * by repeat constructor.
Qed.

(** ** The memory guard: what it asks and how long it waits *)

Lemma ignore_filter_nonempty (pools : list string) :
  (0 < length (ignore_filter pools))%nat
  ↔ ∃ x, x ∈ pools ∧ x ∉ ignore_pools.
Proof.
  unfold ignore_filter. split.
  - destruct (filter _ pools) as [|x l] eqn:Hf; simpl; [lia|]. intros _.
    assert (Hx : x ∈ filter (fun x => x ∉ ignore_pools) pools).
    { rewrite Hf. apply list_elem_of_here. }
    apply list_elem_of_filter in Hx as [Hx Hin]. eauto.
  - intros (x & Hin & Hx).
    assert (Hf : x ∈ filter (fun x => x ∉ ignore_pools) pools).
    { by apply list_elem_of_filter. }
    destruct (filter _ pools); [by apply elem_of_nil in Hf|simpl; lia].
Qed.

Lemma lookup_short_nodes (rv : gmap string (list string)) (node : string)
    (pools : list string) :
  short_nodes rv !! node = Some pools
  ↔ rv !! node = Some pools ∧ ∃ x, x ∈ pools ∧ x ∉ ignore_pools.
Proof.
  unfold short_nodes. rewrite map_lookup_filter_Some. simpl.
  by rewrite ignore_filter_nonempty.
Qed.

Section MemoryQueries.
Context {C : Type} `{!TomcatCluster C}.
Variable self : Config.

Lemma elem_of_short_hosts (c : C) (node : string) :
  node ∈ short_hosts self c
  ↔ ∃ pools,
      (run_command (pools_query self None) c).1 !! node = Some pools
      ∧ ∃ x, x ∈ pools ∧ x ∉ ignore_pools.
Proof.
  unfold short_hosts, short_at. rewrite list_elem_of_fmap. split.
  - intros ([node' pools] & -> & Hin). apply elem_of_map_to_list in Hin.
    exists pools. by apply lookup_short_nodes.
  - intros (pools & Hpools). exists (node, pools). split; [done|].
    apply elem_of_map_to_list. by apply lookup_short_nodes.
Qed.

(** The commands of the loop of [_wait_for_free_mem] are memory queries
    for the hosts it is given; a run that returns has slept once less
    than it has asked. *)
Lemma wait_for_free_mem_from_commands (fuel : nat) :
  ∀ (hosts : list string) (percentage wait_total : Z) (c : C),
    let r := _wait_for_free_mem_from self fuel hosts percentage wait_total c in
    ∃ n, (n ≤ fuel)%nat
         ∧ commands (trace_of r) = replicate n (pools_query self (Some hosts))
         ∧ (∀ b, outcome_of r = Ret b → n = S (length (sleeps (trace_of r)))).
Proof.
  induction fuel as [|fuel IH]; intros hosts percentage wait_total c; simpl.
  - exists 0%nat. split; [lia|]. split; [done|]. by intros b.
  - rewrite (bind_ret_l _ _ _ _ _ _ (get_memory_at self percentage (Some hosts) c)).
    unfold trace_of, outcome_of. simpl.
    case_bool_decide; [|exists 1%nat; split; [lia|]; split; [done|]; by intros b].
    case_bool_decide;
      [exists 1%nat; split; [lia|]; split; [done|]; by intros b|].
    unfold bind at 1 2 3, time_sleep.
    case_bool_decide;
      [exists 1%nat; split; [lia|]; split; [done|]; by intros b|].
    simpl.
    destruct (IH hosts percentage (wait_total + poll_interval self)
                (elapse (poll_interval self) (after_query self (Some hosts) c)))
      as (n & Hn & Hcmds & Hret).
    unfold trace_of, outcome_of in Hcmds, Hret.
    destruct (_wait_for_free_mem_from _ _ _ _ _ _) as [[o c2] t2].
    simpl in *. exists (S n). split; [lia|]. split.
    + change (commands (EvSleep (poll_interval self) :: t2)) with (commands t2).
      by rewrite Hcmds.
    + intros b Hb. f_equal.
      change (sleeps (EvSleep (poll_interval self) :: t2))
        with (poll_interval self :: sleeps t2).
      simpl. by apply (Hret b).
Qed.

(** With a zero interval, while the nodes stay short of memory, the loop
    of [_wait_for_free_mem] never accumulates any wait and does not end. *)
Lemma wait_for_free_mem_from_stuck (hosts : list string) (percentage : Z)
    (fuel : nat) :
  poll_interval self = 0 →
  ∀ (wait_total : Z) (c : C),
    wait_total ≤ gc_wait_time self →
    (∀ k, (0 < size (short_at self (Some hosts)
                       (check_state self hosts k c)))%nat) →
    ∃ c' t,
      _wait_for_free_mem_from self fuel hosts percentage wait_total c
      = (Diverge, c', t)
      ∧ length (commands t) = fuel ∧ slept t = 0.
Proof.
  intros Hpoll. induction fuel as [|fuel IH]; intros wait_total c Hw Hshort.
  - by eexists _, _.
  - simpl.
    rewrite (bind_ret_l _ _ _ _ _ _ (get_memory_at self percentage (Some hosts) c)).
    rewrite bool_decide_true by apply (Hshort 0%nat).
    rewrite bool_decide_false by lia.
    rewrite (bind_ret_l _ _ _ _ _ _
               (time_sleep_run (poll_interval self)
                  (after_query self (Some hosts) c) ltac:(lia))).
    destruct (IH (wait_total + poll_interval self)
                (elapse (poll_interval self) (after_query self (Some hosts) c)))
      as (c' & t & -> & Hlen & Hslept).
    + lia.
    + intros k. apply (Hshort (S k)).
    + eexists _, _. split; [done|]. simpl.
      change (commands (EvSleep (poll_interval self) :: t)) with (commands t).
      rewrite Hlen, Hslept, Hpoll. done.
Qed.
End MemoryQueries.

(** X8.  [_get_memory] issues one [find_pools_over] query, with
    [100 - required_memory] whatever its [percentage] argument is and with
    the hosts it is given, and returns the entries of the answer that list
    at least one pool other than the two ignored ones, each with the
    list of pools as the cluster reported it, ignored pools included. *)
Theorem get_memory_keeps_short_nodes {C} `{!TomcatCluster C}
    (self : Config) (percentage : Z) (hosts : option (list string)) (c : C) :
  let query := cmd_find_pools_over (100 - required_memory self) hosts in
  ∃ mem,
    _get_memory self percentage hosts c
    = (Ret mem, (run_command query c).2, [EvCommand query])
    ∧ ∀ node pools,
        mem !! node = Some pools
        ↔ (run_command query c).1 !! node = Some pools
          ∧ ∃ x, x ∈ pools ∧ x ∉ ignore_pools.
Proof.
  intros query. eexists. split; [apply get_memory_run|].
  intros node pools. apply lookup_short_nodes.
Qed.

(** X9.  When the first query finds no node short of memory, or when
    [auto_gc] is off, [_check_memory] makes that one query and nothing
    else, whatever the fuel: it returns [True] in the first case and fails
    with [InsufficientMemory] otherwise, without a garbage collection and
    without a wait.  The nodes the error names are the nodes for which the
    query reports a pool other than the two ignored ones, each once. *)
Theorem check_memory_single_query {C} `{!TomcatCluster C}
    (self : Config) (fuel : nat) (c : C) :
  size (short_at self None c) = 0%nat ∨ auto_gc self = false →
  _check_memory self fuel c
  = (if bool_decide (size (short_at self None c) = 0%nat)
     then Ret true
     else Raise (TomcatError (InsufficientMemory (short_hosts self c))),
     after_query self None c, [EvCommand (pools_query self None)])
  ∧ NoDup (short_hosts self c)
  ∧ ∀ node,
      node ∈ short_hosts self c
      ↔ ∃ pools,
          (run_command (pools_query self None) c).1 !! node = Some pools
          ∧ ∃ x, x ∈ pools ∧ x ∉ ignore_pools.
Proof.
  intros Hcase. split; [|split].
  - unfold _check_memory.
    rewrite (bind_ret_l _ _ _ _ _ _ (get_memory_at self _ None c)).
    case_bool_decide as Hnone.
    + rewrite bool_decide_true by lia. done.
    + rewrite bool_decide_false by lia.
      destruct Hcase as [Hzero|Hgc]; [lia|]. by rewrite Hgc.
  - apply NoDup_fst_map_to_list.
  - apply elem_of_short_hosts.
Qed.

(** X10.  Whatever the cluster answers and however the run ends, the
    commands of [_check_memory] are: the query for all nodes; then, only
    when that query found nodes short of memory and [auto_gc] is on, one
    [run_gc] for exactly those nodes, followed by queries restricted to
    those same nodes, at most one for each unit of fuel. *)
Theorem check_memory_commands {C} `{!TomcatCluster C}
    (self : Config) (fuel : nat) (c : C) :
  ∃ n, (n ≤ fuel)%nat
       ∧ commands (trace_of (_check_memory self fuel c))
         = pools_query self None
           :: (if bool_decide (0 < size (short_at self None c))%nat
                  && auto_gc self
               then cmd_run_gc (short_hosts self c)
                    :: replicate n (pools_query self (Some (short_hosts self c)))
               else []).
Proof.
  unfold _check_memory.
  rewrite (bind_ret_l _ _ _ _ _ _ (get_memory_at self _ None c)).
  unfold trace_of. simpl.
  case_bool_decide as Hnone.
  { rewrite bool_decide_false by lia. exists 0%nat. split; [lia|done]. }
  rewrite bool_decide_true by lia. simpl.
  destruct (auto_gc self); [|exists 0%nat; split; [lia|done]].
  unfold _perform_gc.
  rewrite (bind_ret_l _ _ _ _ _ _ (run_command_run _ _)). simpl.
  fold (short_hosts self c).
  set (c1 := (run_command (cmd_run_gc (short_hosts self c))
                (after_query self None c)).2).
  destruct (wait_for_free_mem_from_commands self fuel (short_hosts self c)
              (100 - required_memory self) 0 c1) as (n & Hn & Hcmds & _).
  exists n. split; [done|]. do 2 f_equal.
  unfold _wait_for_free_mem, bind.
  unfold trace_of in Hcmds.
  destruct (_wait_for_free_mem_from _ _ _ _ _ _) as [[[[]|e|] c2] t2];
    simpl in *; by rewrite ?app_nil_r.
Qed.

(** X11.  With a positive [poll_interval] and a [gc_wait_time] that is
    not negative, when the nodes stay short of memory [_wait_for_free_mem]
    returns [False] after [gc_wait_time / poll_interval + 1] sleeps of
    [poll_interval] each: the accumulated wait is then above
    [gc_wait_time], by at most one interval, and one more query than
    sleeps has been made. *)
Theorem wait_for_free_mem_gives_up {C} `{!TomcatCluster C}
    (self : Config) (fuel : nat) (hosts : list string) (percentage : Z)
    (c : C) :
  0 < poll_interval self →
  0 ≤ gc_wait_time self →
  (gc_sleeps self < fuel)%nat →
  (∀ k, (k ≤ gc_sleeps self)%nat →
        (0 < size (short_at self (Some hosts)
                     (check_state self hosts k c)))%nat) →
  ∃ c' t,
    _wait_for_free_mem self fuel hosts percentage c = (Ret false, c', t)
    ∧ sleeps t = replicate (gc_sleeps self) (poll_interval self)
    ∧ gc_wait_time self < slept t ≤ gc_wait_time self + poll_interval self
    ∧ commands t
      = replicate (S (gc_sleeps self)) (pools_query self (Some hosts)).
Proof.
  intros Hpoll Hwait Hfuel Hshort.
  pose proof (Z.div_mod (gc_wait_time self) (poll_interval self) ltac:(lia))
    as Hdiv.
  pose proof (Z.mod_pos_bound (gc_wait_time self) (poll_interval self) Hpoll)
    as Hmod.
  pose proof (Z.div_pos (gc_wait_time self) (poll_interval self) Hwait Hpoll)
    as Hquot.
  assert (Hk : Z.of_nat (gc_sleeps self)
               = gc_wait_time self / poll_interval self + 1).
  { unfold gc_sleeps. lia. }
  destruct (wait_for_free_mem_from_run self hosts percentage (gc_sleeps self)
              fuel 0 c) as (t & Hrun & Hsl & Hst).
  - done.
  - lia.
  - intros j Hj. split; [apply Hshort; lia|]. nia.
  - right. nia.
  - destruct (wait_for_free_mem_from_commands self fuel hosts percentage 0 c)
      as (n & _ & Hcmds & Hret).
    unfold _wait_for_free_mem. rewrite Hrun in *.
    unfold trace_of, outcome_of in *. simpl in *.
    rewrite bool_decide_false
      by (specialize (Hshort (gc_sleeps self) ltac:(lia)); lia).
    eexists _, _. split; [done|]. split; [done|]. split; [nia|].
    rewrite Hcmds. f_equal.
    rewrite (Hret _ eq_refl), Hsl. by rewrite length_replicate.
Qed.

(** X12.  With [poll_interval] zero and a [gc_wait_time] that is not
    negative, when the nodes stay short of memory [_wait_for_free_mem]
    never returns: no wait accumulates, and with any amount of fuel the
    run is cut off after as many queries as there is fuel. *)
Theorem wait_for_free_mem_zero_interval {C} `{!TomcatCluster C}
    (self : Config) (hosts : list string) (percentage : Z) (c : C) :
  poll_interval self = 0 →
  0 ≤ gc_wait_time self →
  (∀ k, (0 < size (short_at self (Some hosts)
                     (check_state self hosts k c)))%nat) →
  ∀ fuel,
    ∃ c' t,
      _wait_for_free_mem self fuel hosts percentage c = (Diverge, c', t)
      ∧ length (commands t) = fuel ∧ slept t = 0.
Proof.
  intros Hpoll Hwait Hshort fuel.
  by apply wait_for_free_mem_from_stuck.
Qed.

(** ** Waiting for the applications: what the result means and how long
    it takes *)

Lemma app_started_true (stats : gmap string AppStatus) (ctx : string) :
  app_started stats ctx = true
  ↔ ∃ cs, stats !! ctx = Some cs
          ∧ st_coherent cs = true ∧ st_stateName cs = "STARTED".
Proof.
  unfold app_started. destruct (stats !! ctx) as [cs|]; split.
  - intros Hst. exists cs. split; [done|].
    apply negb_true_iff, orb_false_iff in Hst as [Hco Hname].
    apply bool_decide_eq_false in Hco, Hname.
    split; [by destruct (st_coherent cs)|].
    by destruct (decide (st_stateName cs = "STARTED")).
  - intros (cs' & [= <-] & Hco & Hname).
    rewrite Hco, Hname. done.
  - done.
  - by intros (cs & [=] & _).
Qed.

Lemma elem_of_failed_of (stats : gmap string AppStatus) (l : list string)
    (ctx : string) :
  ctx ∈ failed_of stats l
  ↔ ctx ∈ l
    ∧ ¬ ∃ cs, stats !! ctx = Some cs
              ∧ st_coherent cs = true ∧ st_stateName cs = "STARTED".
Proof.
  unfold failed_of. rewrite list_elem_of_filter, <- app_started_true.
  destruct (app_started stats ctx); split; intros [??]; split; done.
Qed.

Lemma failed_of_nil (stats : gmap string AppStatus) (l : list string) :
  failed_of stats l = [] ↔ all_started stats l.
Proof.
  split; [|apply all_started_failed_of].
  intros Hnil ctx Hctx.
  destruct (decide (app_started stats ctx = true)) as [Hst|Hst];
    [by apply app_started_true|].
  assert (Hin : ctx ∈ failed_of stats l).
  { apply elem_of_failed_of. split; [done|]. by rewrite <- app_started_true. }
  rewrite Hnil in Hin. by apply elem_of_nil in Hin.
Qed.

Section Timing.
Context {C : Type} `{!TomcatCluster C}.
Variable self : Config.
Variable ctx_list : list string.
Variable vhost : string.

(** A run of the loop of [_wait_for_apps] that returns: every sleep lasts
    [poll_interval]; the loop was not entered, or it ended on a status
    read that shows every context started, before [deploy_wait_time] of
    accumulated wait, or it ended because the wait reached
    [deploy_wait_time], each of its status reads followed by a sleep. *)
Lemma wait_for_apps_from_timing (fuel : nat) :
  ∀ (wait_total : Z) (failed_apps r : option (list string)) (c c' : C)
    (t : list event),
    _wait_for_apps_from self fuel ctx_list vhost wait_total failed_apps c
    = (Ret r, c', t) →
    sleeps t = replicate (length (sleeps t)) (poll_interval self)
    ∧ slept t = Z.of_nat (length (sleeps t)) * poll_interval self
    ∧ ((t = [] ∧ r = failed_apps ∧ ¬ wait_total < deploy_wait_time self)
       ∨ (r = Some []
          ∧ length (status_reads t) = S (length (sleeps t))
          ∧ wait_total < deploy_wait_time self
          ∧ wait_total + slept t < deploy_wait_time self)
       ∨ (∃ failed, r = Some failed ∧ failed ≠ []
          ∧ length (status_reads t) = length (sleeps t)
          ∧ wait_total < deploy_wait_time self
          ∧ 0 ≤ poll_interval self
          ∧ deploy_wait_time self ≤ wait_total + slept t
          ∧ wait_total + slept t - poll_interval self
            < deploy_wait_time self)).
Proof.
  induction fuel as [|fuel IH]; intros wait_total fa r c c' t Hrun.
  - simpl in Hrun. case_bool_decide; [done|].
    injection Hrun as <- <- <-. split; [done|]. split; [done|]. by left.
  - destruct (decide (wait_total < deploy_wait_time self)) as [Hw|Hw].
    + rewrite wait_for_apps_from_step in Hrun by done. simpl in Hrun.
      case_bool_decide as Hfailed.
      * injection Hrun as <- <- <-. rewrite Hfailed.
        split; [done|]. split; [done|]. right; left.
        split; [done|]. split; [done|]. split; [done|]. simpl. lia.
      * unfold bind, time_sleep in Hrun.
        case_bool_decide as Hneg; [done|].
        destruct (_wait_for_apps_from _ _ _ _ _ _ _) as [[o c2] t2] eqn:Hrec.
        simpl in Hrun. injection Hrun as -> -> <-.
        apply IH in Hrec as (Hsl & Hst & Hcases).
        change (sleeps (EvStatus "*" vhost (status_at vhost c)
                        :: EvSleep (poll_interval self) :: t2))
          with (poll_interval self :: sleeps t2).
        change (status_reads (EvStatus "*" vhost (status_at vhost c)
                              :: EvSleep (poll_interval self) :: t2))
          with (status_at vhost c :: status_reads t2).
        change (slept (EvStatus "*" vhost (status_at vhost c)
                       :: EvSleep (poll_interval self) :: t2))
          with (poll_interval self + slept t2).
        split; [simpl; by rewrite <- Hsl|]. split; [simpl length; lia|].
        right.
        destruct Hcases as [(-> & -> & Hend)|[(-> & Hlen & _ & Hlt)|
          (failed & -> & Hne & Hlen & Hw' & Hpoll & Hge & Hlt)]].
        -- right. eexists. split; [done|]. split; [done|]. simpl. lia.
        -- left. split; [done|]. simpl. rewrite Hlen. lia.
        -- right. exists failed. split; [done|]. split; [done|].
           simpl. rewrite Hlen. lia.
    + rewrite wait_for_apps_from_exit in Hrun by done.
      injection Hrun as <- <- <-. split; [done|]. split; [done|]. by left.
Qed.
End Timing.

(** X13.  When [_wait_for_apps] returns, the list it returns holds
    exactly the contexts of the batch that its last status read does not
    show coherent and "STARTED", a context missing from that read
    included; it is empty exactly when that read shows every context of
    the batch started. *)
Theorem wait_for_apps_reports_last_read {C} `{!TomcatCluster C}
    (self : Config) (fuel : nat) (new_apps : list (string * webapp))
    (vhost : string) (c c' : C) (failed : list string) (t : list event) :
  _wait_for_apps self fuel new_apps vhost c = (Ret failed, c', t) →
  ∃ stats,
    last (status_reads t) = Some stats
    ∧ (∀ ctx, ctx ∈ failed
         ↔ ctx ∈ ctx_names new_apps
           ∧ ¬ ∃ cs, stats !! ctx = Some cs
                     ∧ st_coherent cs = true ∧ st_stateName cs = "STARTED")
    ∧ (failed = [] ↔ all_started stats (ctx_names new_apps)).
Proof.
  intros Hwait. rewrite wait_for_apps_run in Hwait. simpl in Hwait.
  destruct (_wait_for_apps_from _ _ _ _ _ _ _) as [[[[f|]|e|] c1] t1] eqn:Hrun;
    simpl in Hwait; try done.
  injection Hwait as -> -> ->.
  apply wait_for_apps_from_inv in Hrun
    as [(_ & _ & [=])|(stats & Hlast & [= ->])].
  exists stats. split; [done|]. split.
  - intros ctx. apply elem_of_failed_of.
  - apply failed_of_nil.
Qed.

(** X14.  When [_wait_for_apps] returns, [deploy_wait_time] is positive
    and every sleep it made lasted [poll_interval].  If the list is empty
    it stopped on a status read, with less than [deploy_wait_time] of
    accumulated sleep.  If the list is not empty, [poll_interval] is
    positive, every status read was followed by a sleep, the last one
    included, and the accumulated sleep has reached [deploy_wait_time]
    without passing it by a whole interval. *)
Theorem wait_for_apps_timing {C} `{!TomcatCluster C}
    (self : Config) (fuel : nat) (new_apps : list (string * webapp))
    (vhost : string) (c c' : C) (failed : list string) (t : list event) :
  _wait_for_apps self fuel new_apps vhost c = (Ret failed, c', t) →
  0 < deploy_wait_time self
  ∧ sleeps t = replicate (length (sleeps t)) (poll_interval self)
  ∧ (failed = [] →
       length (status_reads t) = S (length (sleeps t))
       ∧ slept t < deploy_wait_time self)
  ∧ (failed ≠ [] →
       length (status_reads t) = length (sleeps t)
       ∧ 0 < poll_interval self
       ∧ deploy_wait_time self ≤ slept t
         < deploy_wait_time self + poll_interval self).
Proof.
  intros Hwait. rewrite wait_for_apps_run in Hwait. simpl in Hwait.
  destruct (_wait_for_apps_from _ _ _ _ _ _ _) as [[[[f|]|e|] c1] t1] eqn:Hrun;
    simpl in Hwait; try done.
  injection Hwait as -> -> ->.
  apply wait_for_apps_from_timing in Hrun as (Hsl & Hst & Hcases).
  destruct Hcases as [(_ & [=] & _)|[([= ->] & Hlen & Hw & Hlt)|
    (failed' & [= ->] & Hne & Hlen & Hw & Hpoll & Hge & Hlt)]].
  - split; [done|]. split; [done|]. split; [intros _; split; [done|lia]|done].
  - split; [done|]. split; [done|]. split; [done|]. intros _.
    split; [done|]. split; [nia|lia].
Qed.

(** ** The commands of [deploy] *)

Lemma commands_ok (ok : command → bool) (t : list event) :
  Forall (event_ok ok) t → Forall (fun cmd => ok cmd = true) (commands t).
Proof.
  induction 1 as [|e t He Ht IH]; [constructor|].
  destruct e as [| cmd |]; try done.
  change (commands (EvCommand cmd :: t)) with (cmd :: commands t).
  by constructor.
Qed.

Lemma deploys_app (t1 t2 : list event) :
  deploys (t1 ++ t2) = deploys t1 ++ deploys t2.
Proof. unfold deploys. by rewrite commands_app, filter_app. Qed.

Lemma deploys_none (t : list event) :
  Forall (event_ok not_deploy) t → deploys t = [].
Proof.
  intros Ht. apply commands_ok in Ht. unfold deploys.
  induction Ht as [|cmd l Hcmd Hl IH]; [done|].
  rewrite filter_cons, decide_False; [done|].
  unfold not_deploy in Hcmd. by destruct (is_deploy cmd).
Qed.

Lemma deploys_of_deploy_commands (vhost : string)
    (new_apps : list (string * webapp)) :
  deploys ((fun item => EvCommand (deploy_command vhost item)) <$> new_apps)
  = deploy_command vhost <$> new_apps.
Proof.
  unfold deploys. rewrite (list_fmap_compose (deploy_command vhost) EvCommand).
  rewrite commands_of_commands.
  induction new_apps as [|item l IH]; [done|].
  rewrite fmap_cons, filter_cons, decide_True by done. by rewrite IH.
Qed.

Section MemoryCommands.
Context {C : Type} `{!TomcatCluster C}.
Variable self : Config.
Variable ok : command → bool.
Hypothesis ok_query :
  ∀ hosts, ok (cmd_find_pools_over (100 - required_memory self) hosts) = true.
Hypothesis ok_run_gc : auto_gc self = true → ∀ hosts, ok (cmd_run_gc hosts) = true.

Lemma behaves_get_memory (percentage : Z) (hosts : option (list string))
    (c : C) :
  behaves false ok (_get_memory self percentage hosts c).
Proof.
  rewrite get_memory_run. split; [done|].
  constructor; [apply ok_query|constructor].
Qed.

Lemma behaves_wait_for_free_mem_from (fuel : nat) :
  ∀ (hosts : list string) (percentage wait_total : Z) (c : C),
    behaves false ok
      (_wait_for_free_mem_from self fuel hosts percentage wait_total c).
Proof.
  induction fuel as [|fuel IH]; intros hosts percentage wait_total c; simpl.
  - by split.
  - apply behaves_bind; [apply behaves_get_memory|].
    intros mem c1. case_bool_decide; [|apply behaves_ret].
    case_bool_decide; [apply behaves_ret|].
    apply behaves_bind; [apply behaves_time_sleep|]. intros _ c2. apply IH.
Qed.

Lemma behaves_check_memory (fuel : nat) (c : C) :
  behaves false ok (_check_memory self fuel c).
Proof.
  unfold _check_memory.
  apply behaves_bind; [apply behaves_get_memory|].
  intros mem c1. case_bool_decide; [apply behaves_ret|].
  destruct (auto_gc self) eqn:Hgc; [|apply behaves_raise].
  apply behaves_bind; [by apply behaves_run_command, ok_run_gc|].
  intros _ c2.
  apply behaves_bind; [apply behaves_wait_for_free_mem_from|].
  intros [] c3; [apply behaves_ret|apply behaves_raise].
Qed.
End MemoryCommands.

Section Allowed.
Context {C : Type} `{!TomcatCluster C}.
Variable self : Config.
Variable new_apps : list (string * webapp).
Variable vhost : string.

Lemma allowed_undeploy_old_versions (path : string) (apps : list string)
    (c : C) :
  behaves false (allowed self new_apps vhost) (_undeploy_old_versions self path apps vhost c).
Proof.
  unfold _undeploy_old_versions.
  apply behaves_bind.
  { destruct (kill_sessions self) eqn:Hkill; [|apply behaves_ret].
    apply behaves_for_each. intros app c1.
    apply behaves_bind; [|intros; apply behaves_ret].
    apply behaves_run_command. simpl.
    by rewrite Hkill, bool_decide_true. }
  intros _ c1. apply behaves_bind.
  { apply behaves_run_command. simpl. by rewrite bool_decide_true. }
  intros _ c2. apply behaves_bind; [apply behaves_get_webapps|].
  intros r c3. apply behaves_bind; [apply behaves_getitem|].
  intros served c4. case_bool_decide; by split.
Qed.

Lemma allowed_clean_old_apps (c : C) :
  behaves false (allowed self new_apps vhost) (_clean_old_apps self new_apps vhost c).
Proof.
  unfold _clean_old_apps. apply behaves_bind; [apply behaves_get_webapps|].
  intros r c1. apply behaves_for_each. intros [[ctx path] ver] c2.
  unfold _clean_old_app.
  apply behaves_bind; [by destruct (r.1.1 !! ctx); split|].
  intros _ c3. destruct (r.2 !! path); [|by split].
  destruct ver as [v|].
  - destruct (r.1.2 !! path) as [served|].
    + case_bool_decide; [|by split]. case_bool_decide; [by split|].
      apply allowed_undeploy_old_versions.
    + apply behaves_bind; [apply behaves_getitem|]. by split.
  - apply behaves_bind; [apply behaves_getitem|]. by split.
Qed.

Lemma allowed_check_memory (fuel : nat) (c : C) :
  check_memory self = true →
  behaves false (allowed self new_apps vhost) (_check_memory self fuel c).
Proof.
  intros Hcheck. apply behaves_check_memory.
  - intros hosts. simpl. by rewrite Hcheck, bool_decide_true.
  - intros Hgc hosts. simpl. by rewrite Hcheck, Hgc.
Qed.

Lemma allowed_guards (fuel : nat) (c : C) :
  behaves false (allowed self new_apps vhost) (guards self fuel new_apps vhost c).
Proof.
  unfold guards. apply behaves_bind; [apply allowed_clean_old_apps|].
  intros _ c1. destruct (check_memory self) eqn:Hcheck; [|apply behaves_ret].
  apply behaves_bind; [by apply allowed_check_memory|].
  intros; apply behaves_ret.
Qed.

(** The loop of [_wait_for_apps] issues no command at all. *)
Lemma quiet_wait_for_apps (accepted : command → bool) (fuel : nat)
    (apps : list (string * webapp)) (c : C) :
  behaves false accepted (_wait_for_apps self fuel apps vhost c).
Proof.
  unfold _wait_for_apps. apply behaves_bind.
  - generalize 0 (@None (list string)). revert c.
    induction fuel as [|fuel IH]; intros c wait_total fa; simpl.
    + case_bool_decide; by split.
    + case_bool_decide; [|apply behaves_ret].
      apply behaves_bind; [apply behaves_webapp_status|].
      intros stats c1. destruct (check_apps stats (ctx_names apps)).1;
        [apply behaves_ret|].
      apply behaves_bind; [apply behaves_time_sleep|]. intros _ c2. apply IH.
  - intros [f|] c1; [apply behaves_ret|apply behaves_raise].
Qed.

Lemma allowed_deploy_commands (c : C) :
  behaves false (allowed self new_apps vhost) (_deploy new_apps vhost c).
Proof.
  destruct (for_collect_commands (deploy_command vhost)
              (fun item : string * webapp => item.2.1.1) new_apps ∅ c)
    as (rv & Hrun & _).
  assert (Hrun' :
    _deploy new_apps vhost c
    = (Ret rv, after_commands (deploy_command vhost <$> new_apps) c,
       (fun item => EvCommand (deploy_command vhost item)) <$> new_apps))
    by exact Hrun.
  rewrite Hrun'. split; [done|]. simpl. apply Forall_fmap, Forall_forall.
  intros item Hin. simpl. apply bool_decide_eq_true.
  split; [done|]. apply list_elem_of_fmap. by exists item.
Qed.

Lemma allowed_undeploy (c : C) :
  undeploy_on_error self = true →
  behaves false (allowed self new_apps vhost) (undeploy (ctx_names new_apps) vhost c).
Proof.
  intros Hroll.
  destruct (for_collect_commands (fun ctx => cmd_undeploy ctx vhost) id
              (ctx_names new_apps) ∅ c) as (rv & Hrun & _).
  assert (Hrun' :
    undeploy (ctx_names new_apps) vhost c
    = (Ret rv,
       after_commands ((fun ctx => cmd_undeploy ctx vhost)
                         <$> ctx_names new_apps) c,
       (fun ctx => EvCommand (cmd_undeploy ctx vhost)) <$> ctx_names new_apps))
    by exact Hrun.
  rewrite Hrun'. split; [done|]. simpl. apply Forall_fmap, Forall_forall.
  intros ctx Hin. simpl. rewrite Hroll. simpl.
  by apply bool_decide_eq_true.
Qed.

Lemma allowed_deploy (fuel : nat) (c : C) :
  behaves false (allowed self new_apps vhost) (deploy self fuel new_apps vhost c).
Proof.
  unfold deploy. apply behaves_bind; [apply allowed_clean_old_apps|].
  intros _ c1. apply behaves_bind.
  { destruct (check_memory self) eqn:Hcheck; [|apply behaves_ret].
    apply behaves_bind; [by apply allowed_check_memory|].
    intros; apply behaves_ret. }
  intros _ c2. apply behaves_bind; [apply allowed_deploy_commands|].
  intros _ c3. apply behaves_bind; [apply quiet_wait_for_apps|].
  intros failed c4. case_bool_decide; [|apply behaves_ret].
  apply behaves_bind; [|intros; apply behaves_raise].
  destruct (undeploy_on_error self) eqn:Hroll; [|apply behaves_ret].
  apply behaves_bind; [by apply allowed_undeploy|].
  intros; apply behaves_ret.
Qed.

(** [deploy] is its guards followed by the [deploy] commands, the wait
    and the rollback. *)
Lemma deploy_after_guards (fuel : nat) (c : C) :
  deploy self fuel new_apps vhost c
  = (guards self fuel new_apps vhost ;;;
     _deploy new_apps vhost ;;;
     failed <- _wait_for_apps self fuel new_apps vhost ;;
     if bool_decide (0 < length failed)%nat
     then
       (if undeploy_on_error self
        then undeploy (ctx_names new_apps) vhost ;;; ret tt
        else ret tt) ;;;
       raise (TomcatError (DeploymentFailed failed))
     else ret tt) c.
Proof. unfold deploy, guards. symmetry. apply bind_assoc. Qed.

(** After the [deploy] commands, no other [deploy] command. *)
Lemma no_deploy_after_deploy (fuel : nat) (c : C) :
  behaves false not_deploy
    ((failed <- _wait_for_apps self fuel new_apps vhost ;;
      if bool_decide (0 < length failed)%nat
      then
        (if undeploy_on_error self
         then undeploy (ctx_names new_apps) vhost ;;; ret tt
         else ret tt) ;;;
        raise (TomcatError (DeploymentFailed failed))
      else ret tt) c).
Proof.
  apply behaves_bind; [apply quiet_wait_for_apps|].
  intros failed c4. case_bool_decide; [|apply behaves_ret].
  apply behaves_bind; [|intros; apply behaves_raise].
  destruct (undeploy_on_error self); [|apply behaves_ret].
  apply behaves_bind; [|intros; apply behaves_ret].
  unfold undeploy. apply behaves_for_collect. intros ctx c5.
  apply behaves_bind; [by apply behaves_run_command|].
  intros; apply behaves_ret.
Qed.

Lemma no_deploy_guards (fuel : nat) (c : C) :
  behaves false not_deploy (guards self fuel new_apps vhost c).
Proof.
  unfold guards. apply behaves_bind; [by apply behaves_clean_old_apps|].
  intros _ c1. destruct (check_memory self); [|apply behaves_ret].
  apply behaves_bind; [by apply behaves_check_memory|].
  intros; apply behaves_ret.
Qed.
End Allowed.

(** ** [deploy] as a whole *)

Section DeployRuns.
Context {C : Type} `{!TomcatCluster C}.
Variable self : Config.

Lemma wait_for_apps_last_read (fuel : nat) (new_apps : list (string * webapp))
    (vhost : string) (c c' : C) (failed : list string) (t : list event) :
  _wait_for_apps self fuel new_apps vhost c = (Ret failed, c', t) →
  ∃ stats, last (status_reads t) = Some stats
           ∧ failed = failed_of stats (ctx_names new_apps).
Proof.
  intros Hwait. rewrite wait_for_apps_run in Hwait. simpl in Hwait.
  destruct (_wait_for_apps_from _ _ _ _ _ _ _) as [[[[f|]|e|] c1] t1] eqn:Hrun;
    simpl in Hwait; try done.
  injection Hwait as -> -> ->.
  apply wait_for_apps_from_inv in Hrun
    as [(_ & _ & [=])|(stats & Hlast & [= ->])].
  by exists stats.
Qed.

(** What follows a failed wait never returns. *)
Lemma rollback_raises (new_apps : list (string * webapp)) (vhost : string)
    (failed : list string) (c : C) :
  ∀ u : unit,
    outcome_of
      (((if undeploy_on_error self
         then undeploy (ctx_names new_apps) vhost ;;; ret tt
         else ret tt) ;;;
        raise (A:=unit) (TomcatError (DeploymentFailed failed))) c)
    ≠ Ret u.
Proof.
  intros u. unfold bind at 1, outcome_of.
  by destruct ((if undeploy_on_error self
               then undeploy (ctx_names new_apps) vhost ;;; ret tt
               else ret tt) c) as [[[[]|e|] c1] t1].
Qed.

(** A run of [deploy] that returns: everything before the wait returned,
    and the wait returned the empty list. *)
Lemma deploy_returns_inv (fuel : nat) (new_apps : list (string * webapp))
    (vhost : string) (c : C) :
  outcome_of (deploy self fuel new_apps vhost c) = Ret tt →
  ∃ rv c1 t1 c2 t2,
    before_wait self fuel new_apps vhost c = (Ret rv, c1, t1)
    ∧ _wait_for_apps self fuel new_apps vhost c1 = (Ret [], c2, t2)
    ∧ deploy self fuel new_apps vhost c = (Ret tt, c2, t1 ++ t2).
Proof.
  intros Hret. rewrite deploy_run in Hret |- *. unfold outcome_of in Hret.
  destruct (before_wait self fuel new_apps vhost c) as [[[rv|e|] c1] t1]
    eqn:Hbefore;
    [|by rewrite (bind_raise_l _ _ _ _ _ _ Hbefore) in Hret
     |by unfold bind in Hret; rewrite Hbefore in Hret].
  rewrite (bind_ret_l _ _ _ _ _ _ Hbefore) in Hret |- *.
  destruct (_wait_for_apps self fuel new_apps vhost c1)
    as [[[failed|e|] c2] t2] eqn:Hwait;
    [|by rewrite (bind_raise_l _ _ _ _ _ _ Hwait) in Hret
     |by unfold bind in Hret; rewrite Hwait in Hret].
  rewrite (bind_ret_l _ _ _ _ _ _ Hwait) in Hret |- *.
  simpl in Hret. case_bool_decide as Hfailed.
  - by apply rollback_raises in Hret.
  - destruct failed; [|simpl in Hfailed; lia].
    exists rv, c1, t1, c2, t2. unfold ret. simpl. by rewrite app_nil_r.
Qed.
End DeployRuns.

(** X15.  Every command [deploy] issues, however the run ends, is one the
    call allows: a [deploy] of a file and context of the batch, an
    [undeploy] of a context of the batch and only when
    [undeploy_on_error] is set, [undeploy_old_versions],
    [expire_sessions] only when [kill_sessions] is set, a [run_gc] only
    when [check_memory] and [auto_gc] are set, a [find_pools_over] only
    when [check_memory] is set and with the threshold
    [100 - required_memory]; each on the virtual host of the call. *)
Theorem deploy_issues_allowed_commands {C} `{!TomcatCluster C}
    (self : Config) (fuel : nat) (new_apps : list (string * webapp))
    (vhost : string) (c : C) (cmd : command) :
  cmd ∈ commands (trace_of (deploy self fuel new_apps vhost c)) →
  match cmd with
  | cmd_deploy fn ctx vh =>
      vh = vhost ∧ ∃ path ver, (fn, (ctx, path, ver)) ∈ new_apps
  | cmd_undeploy ctx vh =>
      undeploy_on_error self = true ∧ vh = vhost ∧ ctx ∈ ctx_names new_apps
  | cmd_undeploy_old_versions vh => vh = vhost
  | cmd_expire_sessions app vh => kill_sessions self = true ∧ vh = vhost
  | cmd_run_gc hosts => check_memory self = true ∧ auto_gc self = true
  | cmd_find_pools_over pct hosts =>
      check_memory self = true ∧ pct = 100 - required_memory self
  end.
Proof.
  intros Hin.
  pose proof (allowed_deploy self new_apps vhost fuel c) as [_ Hok].
  apply commands_ok in Hok.
  eapply Forall_forall in Hok; [|exact Hin].
  destruct cmd as [fn ctx vh|ctx vh|vh|app vh|hosts|pct hosts]; simpl in Hok.
  - apply bool_decide_eq_true in Hok as [-> Hitem]. split; [done|].
    apply list_elem_of_fmap in Hitem as ([fn' [[ctx' path] ver]] & [= -> ->] & Hitem).
    eauto.
  - apply andb_true_iff in Hok as [Hroll Hok].
    apply bool_decide_eq_true in Hok as [-> Hctx]. done.
  - by apply bool_decide_eq_true in Hok.
  - apply andb_true_iff in Hok as [Hkill Hok].
    by apply bool_decide_eq_true in Hok.
  - by apply andb_true_iff in Hok.
  - apply andb_true_iff in Hok as [Hcheck Hok].
    by apply bool_decide_eq_true in Hok.
Qed.

(** X16.  With [undeploy_on_error] off, when the wait returns failed
    contexts [deploy] raises [DeploymentFailed] with them at once: its
    trace ends with the trace of the wait, and no [undeploy] command is
    in it. *)
Theorem deploy_fails_without_rollback {C} `{!TomcatCluster C}
    (self : Config) (fuel : nat) (new_apps : list (string * webapp))
    (vhost : string) (c c1 c2 : C)
    (rv : gmap string (gmap string (list string)))
    (t1 t2 : list event) (failed : list string) :
  undeploy_on_error self = false →
  before_wait self fuel new_apps vhost c = (Ret rv, c1, t1) →
  _wait_for_apps self fuel new_apps vhost c1 = (Ret failed, c2, t2) →
  failed ≠ [] →
  deploy self fuel new_apps vhost c
  = (Raise (TomcatError (DeploymentFailed failed)), c2, t1 ++ t2)
  ∧ undeploys (t1 ++ t2) = [].
Proof.
  intros Hroll Hbefore Hwait Hfailed. split.
  - rewrite deploy_run.
    rewrite (bind_ret_l _ _ _ _ _ _ Hbefore).
    rewrite (bind_ret_l _ _ _ _ _ _ Hwait).
    rewrite bool_decide_true by (destruct failed; [done|simpl; lia]).
    rewrite Hroll. unfold bind, ret, raise. simpl. by rewrite app_nil_r.
  - rewrite undeploys_app.
    pose proof (no_undeploy_before_wait self fuel new_apps vhost c) as [_ Hb].
    pose proof (no_undeploy_wait_for_apps self fuel new_apps vhost c1) as [_ Hw].
    rewrite Hbefore in Hb. rewrite Hwait in Hw. simpl in Hb, Hw.
    by rewrite (undeploys_none _ Hb), (undeploys_none _ Hw).
Qed.

(** X17.  The [deploy] commands of a run of [deploy] are all or nothing:
    when the conflict check and the memory guard have returned, they are
    exactly one command for each item of the batch, in order, however the
    run goes on; when one of the two has failed or has not ended, there is
    none. *)
Theorem deploy_commands_all_or_nothing {C} `{!TomcatCluster C}
    (self : Config) (fuel : nat) (new_apps : list (string * webapp))
    (vhost : string) (c : C) :
  deploys (trace_of (deploy self fuel new_apps vhost c))
  = match outcome_of (guards self fuel new_apps vhost c) with
    | Ret _ => deploy_command vhost <$> new_apps
    | _ => []
    end.
Proof.
  rewrite deploy_after_guards.
  pose proof (no_deploy_guards self new_apps vhost fuel c) as [_ Hguards].
  unfold bind at 1, trace_of, outcome_of.
  destruct (guards self fuel new_apps vhost c) as [[[[]|e|] c1] t1];
    simpl in *; [|by apply deploys_none..].
  destruct (for_collect_commands (deploy_command vhost)
              (fun item : string * webapp => item.2.1.1) new_apps ∅ c1)
    as (rv & Hrun & _).
  assert (Hrun' :
    _deploy new_apps vhost c1
    = (Ret rv, after_commands (deploy_command vhost <$> new_apps) c1,
       (fun item => EvCommand (deploy_command vhost item)) <$> new_apps))
    by exact Hrun.
  rewrite (bind_ret_l _ _ _ _ _ _ Hrun'). simpl.
  pose proof (no_deploy_after_deploy self new_apps vhost fuel
                (after_commands (deploy_command vhost <$> new_apps) c1))
    as [_ Hafter].
  rewrite !deploys_app, (deploys_none _ Hguards), (deploys_none _ Hafter).
  rewrite deploys_of_deploy_commands. simpl. by rewrite app_nil_r.
Qed.

(** X18.  [deploy] returns only when the last status read it has made
    shows every context of the batch coherent and "STARTED"; it has then
    issued no [undeploy] command, whatever [undeploy_on_error] is, and
    its trace is that of the steps before the wait followed by that of
    the wait. *)
Theorem deploy_returns_only_when_started {C} `{!TomcatCluster C}
    (self : Config) (fuel : nat) (new_apps : list (string * webapp))
    (vhost : string) (c : C) :
  outcome_of (deploy self fuel new_apps vhost c) = Ret tt →
  (∃ stats,
     last (status_reads (trace_of (deploy self fuel new_apps vhost c)))
     = Some stats
     ∧ all_started stats (ctx_names new_apps))
  ∧ undeploys (trace_of (deploy self fuel new_apps vhost c)) = []
  ∧ 0 < deploy_wait_time self.
Proof.
  intros Hret.
  apply deploy_returns_inv in Hret
    as (rv & c1 & t1 & c2 & t2 & Hbefore & Hwait & ->).
  unfold trace_of. simpl. split; [|split].
  - destruct (wait_for_apps_last_read self fuel new_apps vhost c1 c2 [] t2 Hwait)
      as (stats & Hlast & Hnone).
    exists stats. split.
    + by rewrite status_reads_app, last_app, Hlast.
    + by apply failed_of_nil.
  - rewrite undeploys_app.
    pose proof (no_undeploy_before_wait self fuel new_apps vhost c) as [_ Hb].
    pose proof (no_undeploy_wait_for_apps self fuel new_apps vhost c1) as [_ Hw].
    rewrite Hbefore in Hb. rewrite Hwait in Hw. simpl in Hb, Hw.
    by rewrite (undeploys_none _ Hb), (undeploys_none _ Hw).
  - rewrite wait_for_apps_run in Hwait. simpl in Hwait.
    destruct (decide (0 < deploy_wait_time self)) as [Hw|Hw]; [done|].
    by rewrite wait_for_apps_from_exit in Hwait by done.
Qed.

(** ** The two dictionaries of [_get_webapps], in full *)

Lemma webapp_paths_snd (stats : gmap string AppStatus) :
  (webapp_paths stats).2 = all_paths_of (map_to_list stats) ∅.
Proof.
  unfold webapp_paths, all_paths_of, node_paths_of.
  generalize (map_to_list stats).
  generalize (∅ : gmap string (list string)) at 2 3.
  generalize (∅ : gmap string (list string)).
  intros d1 d2 items. revert d1 d2.
  induction items as [|ad items IH]; intros d1 d2; simpl; [done|].
  apply IH.
Qed.

Lemma node_paths_of_lookup (kvs : list (string * string))
    (d : gmap string (list string)) (p : string) :
  default [] (node_paths_of kvs d !! p)
  = default [] (d !! p)
    ++ (filter (fun kv : string * string => kv.2 = p) kvs).*1.
Proof.
  revert d. induction kvs as [|kv kvs IH]; intros d; simpl.
  - by rewrite app_nil_r.
  - unfold node_paths_of in *. simpl. rewrite IH, lookup_setdefault_append.
    rewrite filter_cons. case_bool_decide as Hp.
    + rewrite decide_True by done. by rewrite <- app_assoc.
    + rewrite decide_False by done. by rewrite app_nil_r.
Qed.

Lemma node_paths_of_nonempty (kvs : list (string * string))
    (d : gmap string (list string)) :
  (∀ q, d !! q ≠ Some []) → ∀ p, node_paths_of kvs d !! p ≠ Some [].
Proof.
  revert d. induction kvs as [|kv kvs IH]; intros d Hd p; simpl.
  - apply Hd.
  - apply IH. intros q. by apply setdefault_append_nonempty.
Qed.

Lemma all_paths_of_nonempty (items : list (string * AppStatus))
    (d : gmap string (list string)) :
  (∀ q, d !! q ≠ Some []) → ∀ p, all_paths_of items d !! p ≠ Some [].
Proof.
  revert d. induction items as [|ad items IH]; intros d Hd p; simpl.
  - apply Hd.
  - apply IH. by apply node_paths_of_nonempty.
Qed.

Lemma elem_of_all_paths_of (items : list (string * AppStatus))
    (d : gmap string (list string)) (p node : string) :
  node ∈ default [] (all_paths_of items d !! p)
  ↔ node ∈ default [] (d !! p)
    ∨ ∃ ad, ad ∈ items
            ∧ cd_path (st_clusterDetails ad.2) !! node = Some p.
Proof.
  revert d. induction items as [|ad items IH]; intros d; simpl.
  - split; [auto|]. intros [?|(ad & Hin & _)]; [done|].
    by apply elem_of_nil in Hin.
  - unfold all_paths_of in *. simpl. rewrite IH, node_paths_of_lookup.
    rewrite elem_of_app, list_elem_of_fmap.
    split.
    + intros [[Hd|([node' p'] & -> & Hkv)]|(ad' & Hin & Hp)].
      * by left.
      * apply list_elem_of_filter in Hkv as [Hp Hkv]. simpl in Hp. subst p'.
        apply elem_of_map_to_list in Hkv.
        right. exists ad. split; [apply list_elem_of_here|done].
      * right. exists ad'. split; [by apply list_elem_of_further|done].
    + intros [Hd|(ad' & Hin & Hp)]; [by left; left|].
      apply elem_of_cons in Hin as [->|Hin]; [|right; eauto].
      left; right. exists (node, p). split; [done|].
      apply list_elem_of_filter. split; [done|].
      by apply elem_of_map_to_list.
Qed.

Lemma is_Some_bucket (m : gmap string (list string)) (p : string) :
  m !! p ≠ Some [] → is_Some (m !! p) ↔ ∃ x, x ∈ default [] (m !! p).
Proof.
  intros Hne. destruct (m !! p) as [[|x l]|]; simpl.
  - done.
  - split; [|by eexists]. intros _. exists x. apply list_elem_of_here.
  - split; [by intros [? [=]]|]. intros [x Hx]. by apply elem_of_nil in Hx.
Qed.

(** X19.  The dictionaries [_get_webapps] returns, from the one status
    read it makes: the entry of [paths] for a path lists the contexts
    whose cluster-wide path it is, and the path is a key exactly when
    there is one; the entry of [all_paths] for a path lists the nodes on
    which some application reports that path, and the path is a key
    exactly when some node reports it for some application. *)
Theorem get_webapps_dictionaries {C} `{!TomcatCluster C}
    (vhost : string) (c : C) :
  let stats := status_at vhost c in
  ∃ paths all_paths,
    _get_webapps vhost c
    = (Ret (stats, paths, all_paths), after_status vhost c,
       [EvStatus "*" vhost stats])
    ∧ (∀ p a, a ∈ default [] (paths !! p)
              ↔ ∃ d, stats !! a = Some d ∧ st_path d = p)
    ∧ (∀ p, is_Some (paths !! p) ↔ ∃ a d, stats !! a = Some d ∧ st_path d = p)
    ∧ (∀ p node,
         node ∈ default [] (all_paths !! p)
         ↔ ∃ a d, stats !! a = Some d
                  ∧ cd_path (st_clusterDetails d) !! node = Some p)
    ∧ (∀ p, is_Some (all_paths !! p)
            ↔ ∃ a d node, stats !! a = Some d
                          ∧ cd_path (st_clusterDetails d) !! node = Some p).
Proof.
  intros stats. eexists _, _. split; [apply get_webapps_run|].
  fold (status_at vhost c). fold stats.
  assert (Hnodes : ∀ p node,
            node ∈ default [] ((webapp_paths stats).2 !! p)
            ↔ ∃ a d, stats !! a = Some d
                     ∧ cd_path (st_clusterDetails d) !! node = Some p).
  { intros p node. rewrite webapp_paths_snd, elem_of_all_paths_of.
    rewrite lookup_empty. simpl. split.
    - intros [Hnil|([a d] & Hin & Hp)]; [by apply elem_of_nil in Hnil|].
      apply elem_of_map_to_list in Hin. eauto.
    - intros (a & d & Hd & Hp). right. exists (a, d).
      split; [by apply elem_of_map_to_list|done]. }
  split; [|split; [|split]].
  - intros p a. apply elem_of_webapp_paths.
  - intros p. rewrite is_Some_bucket.
    + split.
      * intros (a & Ha). apply elem_of_webapp_paths in Ha. eauto.
      * intros (a & d & Hd). exists a. apply elem_of_webapp_paths. eauto.
    + rewrite webapp_paths_fst. by apply paths_of_nonempty.
  - exact Hnodes.
  - intros p. rewrite is_Some_bucket.
    + split.
      * intros (node & Hnode). apply Hnodes in Hnode as (a & d & Hd). eauto.
      * intros (a & d & node & Hd). exists node. apply Hnodes. eauto.
    + rewrite webapp_paths_snd. by apply all_paths_of_nonempty.
Qed.

(** ** The progress callback *)

Section ProgressProperties.
Context {E : Type} `{Countable E}.
Variables UPLOAD CMD_START CMD_END : E.

Lemma handlers_lookup (event : E) :
  handlers UPLOAD CMD_START CMD_END !! event
  = if bool_decide (event = CMD_END) then Some log_cmd_status
    else if bool_decide (event = CMD_START) then Some log_cmd_status
    else if bool_decide (event = UPLOAD) then Some log_upload_status
    else None.
Proof.
  unfold handlers. case_bool_decide as Hend.
  { subst. by rewrite lookup_insert_eq. }
  rewrite lookup_insert_ne by done. case_bool_decide as Hstart.
  { subst. by rewrite lookup_insert_eq. }
  rewrite lookup_insert_ne by done. case_bool_decide as Hup.
  { subst. by rewrite lookup_insert_eq. }
  by rewrite lookup_insert_ne by done.
Qed.

Lemma cmd_messages_lookup (ec : E) :
  cmd_messages CMD_START CMD_END !! ec
  = if bool_decide (ec = CMD_END)
    then Some {["deploy" := "Successfully deployed %s to %s";
                "undeploy" := "Successfully undeployed %s from %s"]}
    else if bool_decide (ec = CMD_START)
    then Some {["deploy" := "Attempting to deploy %s to %s";
                "undeploy" := "Attempting to undeploy %s from %s"]}
    else None.
Proof.
  unfold cmd_messages. case_bool_decide as Hend.
  { subst. by rewrite lookup_insert_eq. }
  rewrite lookup_insert_ne by done. case_bool_decide as Hstart.
  { subst. by rewrite lookup_insert_eq. }
  by rewrite lookup_insert_ne by done.
Qed.

Lemma messages_lookup_other (a b cmd : string) :
  cmd ≠ "deploy" → cmd ≠ "undeploy" →
  ({["deploy" := a; "undeploy" := b]} : gmap string string) !! cmd = None.
Proof.
  intros Hd Hu. rewrite lookup_insert_ne by done.
  by rewrite lookup_singleton_ne.
Qed.
End ProgressProperties.

(** X20.  [_progress_callback] ignores what it has no handler for: when
    its arguments have no ['event'] key, or an event that is none of
    [UPLOAD], [CMD_START] and [CMD_END], it returns without logging
    anything and without reading any other key. *)
Theorem progress_callback_ignores_unknown {E : Type} `{Countable E}
    (UPLOAD CMD_START CMD_END : E) (args : ProgressArgs E) :
  pa_event args = None
  ∨ (∃ event, pa_event args = Some event
              ∧ event ≠ UPLOAD ∧ event ≠ CMD_START ∧ event ≠ CMD_END) →
  _progress_callback UPLOAD CMD_START CMD_END args = (inr tt, []).
Proof.
  intros [Hnone|(event & Hev & Hup & Hstart & Hend)];
    unfold _progress_callback.
  - by rewrite Hnone.
  - rewrite Hev, handlers_lookup.
    by rewrite !bool_decide_false by done.
Qed.

(** X21.  For an [UPLOAD] event, when [UPLOAD] is neither of the two
    other constants and the event has its four keys, the callback logs
    the event at debug level and then, at info level: the start of the
    upload when the position is 0; its completion when the position is
    not 0 and equals the total; nothing otherwise.  An upload of total 0
    is thus announced as started and never as completed. *)
Theorem progress_callback_upload {E : Type} `{Countable E}
    (UPLOAD CMD_START CMD_END : E) (args : ProgressArgs E)
    (position total : Z) (filename url : string) :
  UPLOAD ≠ CMD_START → UPLOAD ≠ CMD_END →
  pa_event args = Some UPLOAD →
  pa_position args = Some position → pa_total args = Some total →
  pa_filename args = Some filename → pa_url args = Some url →
  _progress_callback UPLOAD CMD_START CMD_END args
  = (inr tt,
     LogDebug "Received upload progress event: %s" args
     :: (if bool_decide (position = 0)
         then [LogInfo "Starting to upload %s to %s" filename url]
         else if bool_decide (position = total)
         then [LogInfo "Completed uploading %s to %s" filename url]
         else [])).
Proof.
  intros Hstart Hend Hev Hpos Htotal Hfile Hurl.
  unfold _progress_callback. rewrite Hev, handlers_lookup.
  rewrite !bool_decide_false by done. rewrite bool_decide_true by done.
  unfold _log_upload_status. rewrite Hpos, Htotal, Hfile, Hurl.
  unfold lbind, log, item, lret. simpl.
  case_bool_decide; [done|]. simpl. by case_bool_decide.
Qed.

(** X22.  For a [CMD_START] or [CMD_END] event with a ['command'] key:
    a command other than "deploy" and "undeploy" is passed over in
    silence, the keys ['args'] and ['node'] not being read; for "deploy"
    and "undeploy" one info line is logged, with the message of the event
    kind and of the command, the first argument of the command and the
    node; and for these two commands an empty argument list raises
    [IndexError] with nothing logged. *)
Theorem progress_callback_command {E : Type} `{Countable E}
    (UPLOAD CMD_START CMD_END ec : E) (args : ProgressArgs E)
    (cmd : string) :
  pa_event args = Some ec →
  ec = CMD_START ∨ ec = CMD_END →
  pa_command args = Some cmd →
  let callback := _progress_callback UPLOAD CMD_START CMD_END in
  (cmd ≠ "deploy" → cmd ≠ "undeploy" → callback args = (inr tt, []))
  ∧ (∀ a rest node,
       pa_args args = Some (a :: rest) → pa_node args = Some node →
       (cmd = "deploy" →
        callback args
        = (inr tt,
           [LogInfo (if bool_decide (ec = CMD_END)
                     then "Successfully deployed %s to %s"
                     else "Attempting to deploy %s to %s") a node]))
       ∧ (cmd = "undeploy" →
          callback args
          = (inr tt,
             [LogInfo (if bool_decide (ec = CMD_END)
                       then "Successfully undeployed %s from %s"
                       else "Attempting to undeploy %s from %s") a node])))
  ∧ (cmd = "deploy" ∨ cmd = "undeploy" → pa_args args = Some [] →
     callback args = (inl LogIndexError, [])).
Proof.
  intros Hev Hkind Hcmd callback.
  assert (Hrun : callback args = _log_cmd_status CMD_START CMD_END args).
  { unfold callback, _progress_callback. rewrite Hev, handlers_lookup.
    destruct Hkind as [->| ->].
    - case_bool_decide; [done|]. by rewrite bool_decide_true.
    - by rewrite bool_decide_true. }
  rewrite Hrun. unfold _log_cmd_status. rewrite Hev, Hcmd.
  unfold lbind at 1 2, item at 1 2, lret. simpl.
  rewrite cmd_messages_lookup.
  assert (Hmsgs :
    (if bool_decide (ec = CMD_END)
     then Some ({["deploy" := "Successfully deployed %s to %s";
                  "undeploy" := "Successfully undeployed %s from %s"]}
                : gmap string string)
     else if bool_decide (ec = CMD_START)
     then Some {["deploy" := "Attempting to deploy %s to %s";
                 "undeploy" := "Attempting to undeploy %s from %s"]}
     else None)
    = Some {["deploy" := if bool_decide (ec = CMD_END)
                         then "Successfully deployed %s to %s"
                         else "Attempting to deploy %s to %s";
             "undeploy" := if bool_decide (ec = CMD_END)
                           then "Successfully undeployed %s from %s"
                           else "Attempting to undeploy %s from %s"]}).
  { case_bool_decide; [done|].
    destruct Hkind as [->| ->]; [by rewrite bool_decide_true|done]. }
  rewrite Hmsgs. clear Hmsgs. split; [|split].
  - intros Hd Hu. by rewrite messages_lookup_other.
  - intros a rest node Hargs Hnode. rewrite Hargs, Hnode. split; intros ->.
    + by rewrite lookup_insert_eq.
    + rewrite lookup_insert_ne by done. by rewrite lookup_singleton_eq.
  - intros [->| ->] Hargs; rewrite Hargs.
    + by rewrite lookup_insert_eq.
    + rewrite lookup_insert_ne by done. by rewrite lookup_singleton_eq.
Qed.

(** ** The further properties on the example clusters *)

Lemma deploy_path_collision_witness :
  deploy default_config 1 apps_p_b "localhost" serving
  = (Raise (TomcatError (PathCollision "/p" ["/x"])),
     after_status "localhost" serving,
     [EvStatus "*" "localhost" (status_at "localhost" serving)]).
Proof.
  apply (deploy_path_collision default_config 1 []
           [("b.war", ("/b", "/b", None))] "p.war" "/p" "/p" "localhost"
           ["/x"] serving (after_status "localhost" serving) []).
  - vm_compute. reflexivity.
  - vm_compute. eexists. reflexivity.
  - vm_compute. reflexivity.
  - reflexivity.
Defined.

Lemma deploy_unversioned_partial_key_error_witness :
  deploy default_config 0 app_unversioned "localhost" partial_cluster
  = (Raise (KeyError "/app"), after_status "localhost" partial_cluster,
     [EvStatus "*" "localhost" (status_at "localhost" partial_cluster)]).
Proof.
  apply (deploy_unversioned_partial_key_error default_config 0 [] []
           "app.war" "/app" "/app" "localhost" partial_cluster
           (after_status "localhost" partial_cluster) []).
  - vm_compute. reflexivity.
  - vm_compute. eexists. reflexivity.
  - vm_compute. reflexivity.
  - reflexivity.
Defined.

Lemma clean_old_apps_compatible_batch_witness :
  _clean_old_apps default_config app_v10 "localhost" one_version
  = (Ret tt, after_status "localhost" one_version,
     [EvStatus "*" "localhost" (status_at "localhost" one_version)]).
Proof.
  apply (clean_old_apps_compatible_batch default_config app_v10 "localhost"
           one_version).
  intros fn ctx path ver Hin.
  apply list_elem_of_singleton in Hin. injection Hin as -> -> -> ->.
  split; [vm_compute; reflexivity|]. right. split; [by eexists|].
  exists ["v9"]. split; [vm_compute; reflexivity|]. simpl. lia.
Defined.

Lemma deploy_retires_old_versions_witness :
  deploy killing_sessions 0 app_v91 "localhost" two_versions
  = (Raise (TomcatError (AmbiguousVersionsRemain "/app" ["v9"; "v8"])),
     after_status "localhost" two_versions,
     [EvStatus "*" "localhost" (status_at "localhost" two_versions);
      EvCommand (cmd_expire_sessions "v8" "localhost");
      EvCommand (cmd_undeploy_old_versions "localhost");
      EvStatus "*" "localhost" (status_at "localhost" two_versions)]).
Proof.
  destruct (deploy_retires_old_versions killing_sessions 0 [] []
              "app##91.war" "v91" "/app" "91" "localhost" ["v9"; "v8"]
              two_versions (after_status "localhost" two_versions) [])
    as (_ & _ & _ & _ & Hfails).
  - vm_compute. reflexivity.
  - vm_compute. eexists. reflexivity.
  - vm_compute. reflexivity.
  - simpl. lia.
  - vm_compute. reflexivity.
  - reflexivity.
  - destruct (Hfails ["v9"; "v8"]) as [Hrun _].
    + vm_compute. reflexivity.
    + simpl. lia.
    + exact Hrun.
Defined.

Lemma check_memory_single_query_witness :
  _check_memory no_gc 0 low_memory
  = (Raise (TomcatError (InsufficientMemory ["node1"])), low_memory,
     [EvCommand (cmd_find_pools_over 50 None)]).
Proof.
  etrans;
    [apply (proj1 (check_memory_single_query no_gc 0 low_memory
                     (or_intror eq_refl)))|].
  vm_compute. reflexivity.
Defined.

Lemma wait_for_free_mem_gives_up_witness :
  ∃ c' t,
    _wait_for_free_mem gc_10_5 4 ["node1"] 50 low_memory = (Ret false, c', t)
    ∧ sleeps t = [5; 5; 5]
    ∧ 10 < slept t ≤ 15
    ∧ commands t = replicate 4 (cmd_find_pools_over 50 (Some ["node1"])).
Proof.
  apply (wait_for_free_mem_gives_up gc_10_5 4 ["node1"] 50 low_memory).
  - reflexivity.
  - vm_compute. discriminate.
  - vm_compute. lia.
  - intros k Hk.
    destruct k as [|[|[|[|k]]]]; [vm_compute; lia..|vm_compute in Hk; lia].
Defined.

(** The scripted cluster [low_memory] answers every memory query alike
    and does not change. *)
Lemma check_state_low_memory (self : Config) (hosts : list string) (k : nat) :
  check_state self hosts k low_memory = low_memory.
Proof. induction k as [|k IH]; [done|exact IH]. Qed.

Lemma wait_for_free_mem_zero_interval_witness :
  ∃ c' t,
    _wait_for_free_mem zero_poll_gc 100 ["node1"] 50 low_memory
    = (Diverge, c', t)
    ∧ length (commands t) = 100%nat ∧ slept t = 0.
Proof.
  apply (wait_for_free_mem_zero_interval zero_poll_gc ["node1"] 50 low_memory).
  - reflexivity.
  - vm_compute. discriminate.
  - intros k. rewrite check_state_low_memory. vm_compute. lia.
Defined.

Lemma wait_for_apps_reports_last_read_witness :
  ∃ stats,
    last (status_reads
            (trace_of (_wait_for_apps default_config 1 app_a "localhost" started)))
    = Some stats
    ∧ all_started stats (ctx_names app_a).
Proof.
  edestruct (wait_for_apps_reports_last_read default_config 1 app_a
               "localhost" started) as (stats & Hlast & _ & Hnone).
  - vm_compute. reflexivity.
  - exists stats. split; [exact Hlast|]. by apply Hnone.
Defined.

Lemma wait_for_apps_timing_witness :
  30 ≤ slept (trace_of (_wait_for_apps default_config 30 app_a "localhost"
                          never_visible)) < 35.
Proof.
  edestruct (wait_for_apps_timing default_config 30 app_a "localhost"
               never_visible) as (_ & _ & _ & Hfailed).
  - vm_compute. reflexivity.
  - destruct (Hfailed ltac:(discriminate)) as (_ & _ & Hslept).
    exact Hslept.
Defined.

Lemma deploy_issues_allowed_commands_witness :
  undeploy_on_error default_config = true
  ∧ "localhost" = "localhost"
  ∧ "/a" ∈ ctx_names app_a.
Proof.
  apply (deploy_issues_allowed_commands default_config 6 app_a "localhost"
           never_visible (cmd_undeploy "/a" "localhost")).
  assert (Hcmds :
    commands (trace_of (deploy default_config 6 app_a "localhost" never_visible))
    = [cmd_find_pools_over 50 None; cmd_deploy "a.war" "/a" "localhost";
       cmd_undeploy "/a" "localhost"]) by (vm_compute; reflexivity).
  rewrite Hcmds. do 2 apply list_elem_of_further. apply list_elem_of_here.
Defined.

Lemma deploy_fails_without_rollback_witness :
  outcome_of (deploy no_rollback 6 app_a "localhost" never_visible)
  = Raise (TomcatError (DeploymentFailed ["/a"]))
  ∧ undeploys (trace_of (deploy no_rollback 6 app_a "localhost" never_visible))
    = [].
Proof.
  edestruct (deploy_fails_without_rollback no_rollback 6 app_a "localhost"
               never_visible) as [Hrun Hnone].
  - reflexivity.
  - vm_compute. reflexivity.
  - vm_compute. reflexivity.
  - discriminate.
  - rewrite Hrun. split; [reflexivity|exact Hnone].
Defined.

Lemma deploy_returns_only_when_started_witness :
  (∃ stats,
     last (status_reads
             (trace_of (deploy default_config 1 app_a "localhost" starting)))
     = Some stats
     ∧ all_started stats (ctx_names app_a))
  ∧ undeploys (trace_of (deploy default_config 1 app_a "localhost" starting))
    = []
  ∧ 0 < deploy_wait_time default_config.
Proof.
  apply (deploy_returns_only_when_started default_config 1 app_a "localhost"
           starting).
  vm_compute. reflexivity.
Defined.

Lemma progress_callback_ignores_unknown_witness :
  callback (command_event "OTHER" "deploy" None) = (inr tt, []).
Proof.
  apply (progress_callback_ignores_unknown "UPLOAD" "CMD_START" "CMD_END"
           (command_event "OTHER" "deploy" None)).
  right. exists "OTHER". split; [reflexivity|]. by repeat split.
Defined.

Lemma progress_callback_upload_witness :
  callback (upload_event 0 0)
  = (inr tt,
     [LogDebug "Received upload progress event: %s" (upload_event 0 0);
      LogInfo "Starting to upload %s to %s" "/tmp/a.war"
        "http://node1:8080/manager"]).
Proof.
  apply (progress_callback_upload "UPLOAD" "CMD_START" "CMD_END"
           (upload_event 0 0) 0 0 "/tmp/a.war" "http://node1:8080/manager");
    (discriminate || reflexivity).
Defined.

Lemma progress_callback_command_witness :
  callback (command_event "CMD_END" "deploy" (Some ["/a"; "localhost"]))
  = (inr tt, [LogInfo "Successfully deployed %s to %s" "/a" "node1"]).
Proof.
  destruct (progress_callback_command "UPLOAD" "CMD_START" "CMD_END" "CMD_END"
              (command_event "CMD_END" "deploy" (Some ["/a"; "localhost"]))
              "deploy" eq_refl (or_intror eq_refl) eq_refl)
    as (_ & Hlogged & _).
  destruct (Hlogged "/a" ["localhost"] "node1" eq_refl eq_refl) as [Hdeploy _].
  exact (Hdeploy eq_refl).
Defined.
